(** * destruct: a struct parsing library

    A shallow embedding of [destruct.py] and the properties of its parse
    protocol.

    Conventions of the embedding.
    - A byte buffer is a [list byte]; Python integers are [Z]; slices
      [input[:k]] and [input[k:]] follow Python for every integer [k],
      negative ones included.
    - A descriptor object is a value of [desc] holding the attributes its
      [__init__] stores.  [parse] returns the parsed value together with the
      [_consumed] attribute the descriptor holds when it returns: every
      reader of [_consumed] in the source reads it right after the parse call
      of the same object, so the pair carries the same information as the
      mutated attribute.
    - A [desc] is a descriptor object as its constructor leaves it, and the
      objects at different places of a [desc] are different objects.  A
      record class has the attributes [_align], [_union] and [_spec] and no
      method of its own: no [on_<field>] hook, no [__init__].
    - A record value [VObj] is the record object with the attributes that
      parsing has set on it when its parse call returns ([_consumed] apart,
      which is the count beside it).  [Struct.parse] returns [self], so this
      is the object the caller holds as long as the object is not parsed
      again: [parse] is exact on the descriptors in which no record object is
      below an [Arr] or a [Seq] ([single_use]).
    - A record object that is parsed again is one object wherever it was
      stored, and it keeps the attributes that earlier calls have set.  The
      calls differ from those of a new object only through the attributes
      that parsing reads ([_align], [_union], [_spec], [parse], and the
      [on_<field>] of a field): where no field has such a name
      ([plain_fields]) the counts, the errors and the number of elements of
      [parse] are exact, and the attributes shown for such an object are
      those of each call, not those the object is left with.  The properties
      of records and of lists below name the one or the other condition as a
      hypothesis.
    - A Python exception is an [exn]: the class name ([type(e).__name__]) and
      the message ([str(e)]).  Messages of the interpreter and of the
      [struct] module are those of CPython 3.11.
    - The loops of [Arr] without a length and of [Seq] need not terminate;
      they take a [fuel] bounding the iterations, and report [OutOfFuel]
      when it does not suffice. *)

From Stdlib Require Import ZArith NArith List String Ascii Bool Lia.
From Stdlib Require Import Strings.Byte DecimalString.
Import ListNotations.

Local Open Scope string_scope.
Local Open Scope list_scope.
Local Open Scope Z_scope.

(** String concatenation, kept apart from the [++] of lists. *)
Infix "+++" := String.append (right associativity, at level 60).

(* ------------------------------------------------------------------ *)
(** ** Python values *)
(* ------------------------------------------------------------------ *)

Definition bytes := list byte.

(** A [str] is its sequence of code points. *)
Definition text := list N.

Definition len {A} (l : list A) : Z := Z.of_nat (List.length l).

(** [if x:] on an integer. *)
Definition truthy (x : Z) : bool := negb (x =? 0).

(** [input[:k]] *)
Definition slice_to {A} (k : Z) (l : list A) : list A :=
  if 0 <=? k then firstn (Z.to_nat k) l
  else firstn (Z.to_nat (len l + k)) l.

(** [input[k:]] *)
Definition slice_from {A} (k : Z) (l : list A) : list A :=
  if 0 <=? k then skipn (Z.to_nat k) l
  else skipn (Z.to_nat (len l + k)) l.

Definition is_empty {A} (l : list A) : bool :=
  match l with [] => true | _ => false end.

(** [range(stop)] *)
Definition range (stop : Z) : list Z :=
  map Z.of_nat (seq 0 (Z.to_nat stop)).

Definition byte_eqb (a b : byte) : bool := Byte.eqb a b.

Fixpoint bytes_eqb (a b : bytes) : bool :=
  match a, b with
  | [], [] => true
  | x :: a', y :: b' => byte_eqb x y && bytes_eqb a' b'
  | _, _ => false
  end.

Definition byte_val (b : byte) : Z := Z.of_N (Byte.to_N b).

(** [b.rstrip(b'\x00')] *)
Fixpoint rstrip_nul (b : bytes) : bytes :=
  match b with
  | [] => []
  | x :: b' =>
      match rstrip_nul b' with
      | [] => if byte_eqb x x00 then [] else [x]
      | r => x :: r
      end
  end.

(** The bytes of an ASCII literal. *)
Definition b (s : string) : bytes := list_byte_of_string s.

(* ------------------------------------------------------------------ *)
(** ** Text formatting: [str(int)], [repr(bytes)], [repr(str)] *)
(* ------------------------------------------------------------------ *)

Definition nl : string := String "010" EmptyString.

Definition str_of_Z (z : Z) : string := NilZero.string_of_int (Z.to_int z).

Definition hex_digit (n : Z) : ascii :=
  if n <? 10 then ascii_of_N (Z.to_N (48 + n))
  else ascii_of_N (Z.to_N (87 + n)).

(** [%02x] of a byte value *)
Definition hex2 (n : Z) : string :=
  String (hex_digit (n / 16)) (String (hex_digit (n mod 16)) EmptyString).

Definition chr (n : Z) : ascii := ascii_of_N (Z.to_N n).
Definition ord (c : ascii) : Z := Z.of_N (N_of_ascii c).

Definition str1 (c : ascii) : string := String c EmptyString.

Fixpoint str_contains (c : ascii) (s : string) : bool :=
  match s with
  | EmptyString => false
  | String x s' => Ascii.eqb x c || str_contains c s'
  end.

(** The quote a [repr] puts around its text: a single quote, unless the
    text holds one and no double quote. *)
Definition dquote : ascii := "034"%char.

Definition repr_quote (s : string) : ascii :=
  if str_contains "'" s && negb (str_contains dquote s) then dquote
  else "'"%char.

(** One character of [repr(bytes)]. *)
Definition repr_byte (q : ascii) (c : ascii) : string :=
  let n := ord c in
  if Ascii.eqb c q || Ascii.eqb c "\" then String "\" (str1 c)
  else if n =? 9 then "\t"
  else if n =? 10 then "\n"
  else if n =? 13 then "\r"
  else if (n <? 32) || (127 <=? n) then "\x" +++ hex2 n
  else str1 c.

(** One character of [repr(str)], for code points below 256: the printable
    ones of Latin-1 stay as they are. *)
Definition repr_char (q : ascii) (c : ascii) : string :=
  let n := ord c in
  if Ascii.eqb c q || Ascii.eqb c "\" then String "\" (str1 c)
  else if n =? 9 then "\t"
  else if n =? 10 then "\n"
  else if n =? 13 then "\r"
  else if (n <? 32) || ((127 <=? n) && (n <=? 160)) || (n =? 173)
       then "\x" +++ hex2 n
  else str1 c.

Fixpoint concat_map (f : ascii -> string) (s : string) : string :=
  match s with
  | EmptyString => EmptyString
  | String c s' => f c +++ concat_map f s'
  end.

Definition string_of_bytes (bs : bytes) : string := string_of_list_byte bs.

Definition repr_bytes (bs : bytes) : string :=
  let s := string_of_bytes bs in
  let q := repr_quote s in
  "b" +++ str1 q +++ concat_map (repr_byte q) s +++ str1 q.

Definition repr_str (s : string) : string :=
  let q := repr_quote s in
  str1 q +++ concat_map (repr_char q) s +++ str1 q.

(** ['\n'.join(lines)] *)
Fixpoint join (sep : string) (lines : list string) : string :=
  match lines with
  | [] => EmptyString
  | [l] => l
  | l :: ls => l +++ sep +++ join sep ls
  end.

(** [s.split('\n')]: the pieces between newlines, the current piece [cur]
    last. *)
Fixpoint split_lines_from (cur : string) (s : string) : list string :=
  match s with
  | EmptyString => [cur]
  | String c s' =>
      if Ascii.eqb c "010" then cur :: split_lines_from EmptyString s'
      else split_lines_from (cur +++ str1 c) s'
  end.

Definition split_lines (s : string) : list string :=
  split_lines_from EmptyString s.

(** [s.partition('\n')], when [s] holds a newline: the text before the first
    one and the text after it. *)
Fixpoint partition_nl (s : string) : string * string :=
  match s with
  | EmptyString => (EmptyString, EmptyString)
  | String c s' =>
      if Ascii.eqb c "010" then (EmptyString, s')
      else let '(first, others) := partition_nl s' in (String c first, others)
  end.

(* ------------------------------------------------------------------ *)
(** ** Exceptions and results *)
(* ------------------------------------------------------------------ *)

Record exn := mk_exn {
  exn_type : string;   (* type(e).__name__ *)
  exn_msg : string     (* str(e) *)
}.

Definition NotImplementedError : exn :=
  mk_exn "NotImplementedError" EmptyString.
Definition KeyError (key_repr : string) : exn := mk_exn "KeyError" key_repr.
Definition ValueError (msg : string) : exn := mk_exn "ValueError" msg.
Definition TypeError (msg : string) : exn := mk_exn "TypeError" msg.
Definition AttributeError (cls attr : string) : exn :=
  mk_exn "AttributeError"
         ("'" +++ cls +++ "' object has no attribute '" +++ attr +++ "'").
Definition UnicodeDecodeError (codec : string) (input : bytes)
    (start stop : Z) (reason : string) : exn :=
  mk_exn "UnicodeDecodeError"
    (if stop =? start + 1
     then "'" +++ codec +++ "' codec can't decode byte 0x"
          +++ hex2 (byte_val (nth (Z.to_nat start) input x00))
          +++ " in position " +++ str_of_Z start +++ ": " +++ reason
     else "'" +++ codec +++ "' codec can't decode bytes in position "
          +++ str_of_Z start +++ "-" +++ str_of_Z (stop - 1) +++ ": "
          +++ reason).

(** The outcome of running a piece of the program. *)
Inductive result (A : Type) : Type :=
| Ok (a : A)
| Raise (e : exn)
| OutOfFuel.
Arguments Ok {A} a.
Arguments Raise {A} e.
Arguments OutOfFuel {A}.

Definition bind {A B} (r : result A) (k : A -> result B) : result B :=
  match r with
  | Ok a => k a
  | Raise e => Raise e
  | OutOfFuel => OutOfFuel
  end.

Notation "x <- r ;; k" := (bind r (fun x => k))
  (at level 61, r at next level, right associativity).
Notation "' p <- r ;; k" := (bind r (fun p => k))
  (at level 61, p pattern, r at next level, right associativity).


(* ------------------------------------------------------------------ *)
(** ** [bytes.decode(encoding)] *)
(* ------------------------------------------------------------------ *)

(** The codecs the embedding covers. *)
Inductive codec := utf_8 | ascii_codec | latin_1.

Definition codec_name (c : codec) : string :=
  match c with
  | utf_8 => "utf-8"
  | ascii_codec => "ascii"
  | latin_1 => "latin-1"
  end.

Definition is_continuation (c : Z) : bool := (128 <=? c) && (c <? 192).

Section Decode.
(** The whole input, for the byte an error message quotes. *)
Variable input : bytes.

Definition decode_error (c : codec) (start stop : Z) (reason : string)
  : result text :=
  Raise (UnicodeDecodeError (codec_name c) input start stop reason).

Definition invalid_continuation (pos k : Z) : result text :=
  decode_error utf_8 pos (pos + k) "invalid continuation byte".

Definition unexpected_end (pos : Z) : result text :=
  decode_error utf_8 pos (len input) "unexpected end of data".

Definition emit (cp : Z) (rest : result text) : result text :=
  s <- rest ;; Ok (Z.to_N cp :: s).

(** CPython's strict UTF-8 decoder: [s] is what is left of the input at
    offset [pos]. *)
Fixpoint utf8_decode_from (pos : Z) (s : bytes) : result text :=
  match s with
  | [] => Ok []
  | b1 :: s1 =>
      let c := byte_val b1 in
      if c <? 128 then emit c (utf8_decode_from (pos + 1) s1)
      else if c <? 194 then
        decode_error utf_8 pos (pos + 1) "invalid start byte"
      else if c <? 224 then
        match s1 with
        | [] => unexpected_end pos
        | b2 :: s2 =>
            let c2 := byte_val b2 in
            if negb (is_continuation c2) then invalid_continuation pos 1
            else emit ((c - 192) * 64 + (c2 - 128))
                      (utf8_decode_from (pos + 2) s2)
        end
      else if c <? 240 then
        match s1 with
        | [] => unexpected_end pos
        | b2 :: s2 =>
            let c2 := byte_val b2 in
            if negb (is_continuation c2)
               || (if c2 <? 160 then c =? 224 else c =? 237)
            then invalid_continuation pos 1
            else
              match s2 with
              | [] => unexpected_end pos
              | b3 :: s3 =>
                  let c3 := byte_val b3 in
                  if negb (is_continuation c3) then invalid_continuation pos 2
                  else emit ((c - 224) * 4096 + (c2 - 128) * 64 + (c3 - 128))
                            (utf8_decode_from (pos + 3) s3)
              end
        end
      else if c <? 245 then
        match s1 with
        | [] => unexpected_end pos
        | b2 :: s2 =>
            let c2 := byte_val b2 in
            if negb (is_continuation c2)
               || (if c2 <? 144 then c =? 240 else c =? 244)
            then invalid_continuation pos 1
            else
              match s2 with
              | [] => unexpected_end pos
              | b3 :: s3 =>
                  let c3 := byte_val b3 in
                  if negb (is_continuation c3) then invalid_continuation pos 2
                  else
                    match s3 with
                    | [] => unexpected_end pos
                    | b4 :: s4 =>
                        let c4 := byte_val b4 in
                        if negb (is_continuation c4)
                        then invalid_continuation pos 3
                        else emit ((c - 240) * 262144 + (c2 - 128) * 4096
                                   + (c3 - 128) * 64 + (c4 - 128))
                                  (utf8_decode_from (pos + 4) s4)
                    end
              end
        end
      else decode_error utf_8 pos (pos + 1) "invalid start byte"
  end.

Fixpoint ascii_decode_from (pos : Z) (s : bytes) : result text :=
  match s with
  | [] => Ok []
  | b1 :: s1 =>
      let c := byte_val b1 in
      if c <? 128 then emit c (ascii_decode_from (pos + 1) s1)
      else decode_error ascii_codec pos (pos + 1) "ordinal not in range(128)"
  end.
End Decode.

Definition decode (input : bytes) (encoding : codec) : result text :=
  match encoding with
  | utf_8 => utf8_decode_from input 0 input
  | ascii_codec => ascii_decode_from input 0 input
  | latin_1 => Ok (map Byte.to_N input)
  end.

(* ------------------------------------------------------------------ *)
(** ** Descriptors and parsed values *)
(* ------------------------------------------------------------------ *)

#[local] Unset Elimination Schemes.

(** A descriptor object, with the attributes its class stores.  A record
    ([Struct] subclass) carries its class name, the [_align] and [_union]
    class attributes that the keyword arguments of the class statement set,
    and its [_spec]: the ordered fields, a field being a descriptor or
    [None].  The fields are the object's own copies ([Struct.__init__]
    copies the mapping of the class), and the object has no attribute that
    parsing has set.  The child of an [Arr] or of a [Seq] is a descriptor
    object, not a class. *)
Inductive desc : Type :=
| TypeObj
| IntObj (n : Z) (signed : bool) (endian : string)
| FloatObj (n : Z)
| SigObj (sequence : bytes)
| StrObj (maxlen : Z) (encoding : codec)
| PadObj (amount : Z)
| DataObj (amount : Z)
| StructObj (cls : string) (_align : Z) (_union : bool)
            (_spec : list (string * option desc))
| AnyObj (children : list desc)
| ArrObj (child : desc) (length : Z)
| SeqObj (child : desc) (limit : Z).

(** The constructors of the source, as its callers write them. *)
Definition Int (n : Z) (signed : bool) (endian : string) : desc :=
  IntObj n signed endian.
Definition UInt (n : Z) (endian : string) : desc := Int n false endian.
Definition Float (n : Z) (endian : string) : desc := FloatObj n.
Definition Double (endian : string) : desc := Float 64 endian.
Definition Sig (sequence : bytes) : desc := SigObj sequence.
Definition Str (maxlen : Z) (encoding : codec) : desc := StrObj maxlen encoding.
Definition Pad (amount : Z) : desc := PadObj amount.
Definition Data (amount : Z) : desc := DataObj 0.
Definition Any (children : list desc) : desc := AnyObj children.
Definition Arr (child : desc) (length : Z) : desc := ArrObj child length.
Definition Seq (child : desc) (limit : Z) : desc := SeqObj child limit.

(** [type(c).__name__]; [UInt] and [Double] build [Int] and [Float]
    objects. *)
Definition type_name (d : desc) : string :=
  match d with
  | TypeObj => "Type"
  | IntObj _ _ _ => "Int"
  | FloatObj _ => "Float"
  | SigObj _ => "Sig"
  | StrObj _ _ => "Str"
  | PadObj _ => "Pad"
  | DataObj _ => "Data"
  | StructObj cls _ _ _ => cls
  | AnyObj _ => "Any"
  | ArrObj _ _ => "Arr"
  | SeqObj _ _ => "Seq"
  end.

Inductive value : Type :=
| VNone
| VInt (z : Z)
| VBytes (bs : bytes)
| VStr (s : text)
| VList (l : list value)
| VObj (cls : string) (attrs : list (string * value)).

#[local] Set Elimination Schemes.

(** [setattr(self, name, val)] on the attributes parsing has set. *)
Fixpoint setattr (self : list (string * value)) (name : string) (val : value)
  : list (string * value) :=
  match self with
  | [] => [(name, val)]
  | (k, v) :: self' =>
      if String.eqb k name then (k, val) :: self'
      else (k, v) :: setattr self' name val
  end.

(** [type(v).__name__] of a parsed value. *)
Definition value_type_name (v : value) : string :=
  match v with
  | VNone => "NoneType"
  | VInt _ => "int"
  | VBytes _ => "bytes"
  | VStr _ => "str"
  | VList _ => "list"
  | VObj cls _ => cls
  end.

(** [if v:] on a parsed value; a record object is true. *)
Definition value_truthy (v : value) : bool :=
  match v with
  | VNone => false
  | VInt z => truthy z
  | VBytes bs => negb (is_empty bs)
  | VStr s => negb (is_empty s)
  | VList l => negb (is_empty l)
  | VObj _ _ => true
  end.

(** What a parse call hands back: the value and the [_consumed] it set. *)
Definition parsed : Type := value * Z.

(* ------------------------------------------------------------------ *)
(** ** The [struct] module, for the formats [Int.format] builds *)
(* ------------------------------------------------------------------ *)

Inductive endianness := LittleEndian | BigEndian.

Definition struct_error (msg : string) : exn := mk_exn "error" msg.

(** Standard sizes: a format that starts with [<], [>] or [=] never uses the
    native ones.  The float codes are left out: [Float.format] raises before
    it builds a format. *)
Definition code_size (code : ascii) : option Z :=
  match code with
  | "b" | "B" => Some 1
  | "h" | "H" => Some 2
  | "i" | "I" | "l" | "L" => Some 4
  | "q" | "Q" => Some 8
  | _ => None
  end%char.

Definition code_signed (code : ascii) : bool :=
  match code with
  | "b" | "h" | "i" | "l" | "q" => true
  | _ => false
  end%char.

(** The value of the bytes, least significant first. *)
Fixpoint le_to_Z (bs : bytes) : Z :=
  match bs with
  | [] => 0
  | x :: bs' => byte_val x + 256 * le_to_Z bs'
  end.

Definition calcsize (fmt : string) : result Z :=
  match fmt with
  | String ("<" | ">" | "=")%char (String code EmptyString) =>
      match code_size code with
      | Some size => Ok size
      | None => Raise (struct_error "bad char in struct format")
      end
  | _ => Raise (struct_error "bad char in struct format")
  end.

Section Host.

(** [sys.byteorder] of the machine that runs the program. *)
Variable sys_byteorder : endianness.

Definition format_order (c : ascii) : endianness :=
  match c with
  | "<"%char => LittleEndian
  | ">"%char => BigEndian
  | _ => sys_byteorder
  end.

(** [struct.unpack(fmt, data)[0]] *)
Definition unpack (fmt : string) (data : bytes) : result Z :=
  size <- calcsize fmt ;;
  if negb (len data =? size) then
    Raise (struct_error ("unpack requires a buffer of " +++ str_of_Z size
                         +++ " bytes"))
  else
    match fmt with
    | String order (String code _) =>
        let u := le_to_Z (match format_order order with
                          | LittleEndian => data
                          | BigEndian => rev data
                          end) in
        Ok (if code_signed code && (2 ^ (8 * size - 1) <=? u)
            then u - 2 ^ (8 * size) else u)
    | _ => Raise (struct_error "bad char in struct format")
    end.

(* ------------------------------------------------------------------ *)
(** ** Numeric descriptors *)
(* ------------------------------------------------------------------ *)

Definition ENDIAN_MAP : list (string * ascii) :=
  [("little", "<"%char); ("big", ">"%char); ("native", "="%char)].

Definition SIZE_MAP : list (Z * ascii) :=
  [(8, "b"%char); (16, "h"%char); (32, "i"%char); (64, "l"%char);
   (128, "q"%char)].

Fixpoint getitem {K V} (eqb : K -> K -> bool) (d : list (K * V)) (key : K)
  : option V :=
  match d with
  | [] => None
  | (k, v) :: d' => if eqb k key then Some v else getitem eqb d' key
  end.

(** [kind.upper()] *)
Definition upper (c : ascii) : ascii :=
  if (97 <=? ord c) && (ord c <=? 122) then chr (ord c - 32) else c.

Definition Int_format (n : Z) (signed : bool) (endian : string)
  : result (option string) :=
  match getitem String.eqb ENDIAN_MAP endian with
  | None => Raise (KeyError (repr_str endian))
  | Some e =>
      match getitem Z.eqb SIZE_MAP n with
      | None => Raise (KeyError (str_of_Z n))
      | Some kind =>
          let kind := if negb signed then upper kind else kind in
          Ok (Some (String e (String kind EmptyString)))
      end
  end.

(** [Float.__init__] never stores [endian], which [format] reads. *)
Definition Float_format (n : Z) : result (option string) :=
  Raise (AttributeError "Float" "endian").

Definition Type_format : result (option string) := Ok None.

Definition Type_parse (format : result (option string)) (input : bytes)
  : result parsed :=
  fmt <- format ;;
  match fmt with
  | Some (String _ _ as fmt) =>
      _consumed <- calcsize fmt ;;
      v <- unpack fmt (slice_to _consumed input) ;;
      Ok (VInt v, _consumed)
  | _ => Raise NotImplementedError
  end.

(* ------------------------------------------------------------------ *)
(** ** Data descriptors *)
(* ------------------------------------------------------------------ *)

Definition Sig_parse (sequence : bytes) (input : bytes) : result parsed :=
  if bytes_eqb (slice_to (len sequence) input) sequence then
    Ok (VBytes sequence, len sequence)
  else
    Raise (ValueError (repr_bytes (slice_to (len sequence) input)
                       +++ " does not match expected "
                       +++ repr_bytes sequence +++ "!")).

Definition find_TypeError : exn :=
  TypeError "argument should be integer or bytes-like object, not 'str'".

(** [input.find('\x00')] on a [bytes] buffer: the argument is a [str], which
    [bytes.find] refuses. *)
Definition bytes_find_str (input : bytes) (sub : string) : result Z :=
  Raise find_TypeError.

Definition Str_parse (maxlen : Z) (encoding : codec) (input : bytes)
  : result parsed :=
  n <- (if truthy maxlen then Ok maxlen
        else
          n <- bytes_find_str input (str1 "000") ;;
          Ok (if n <? 0 then len input else n)) ;;
  s <- decode (rstrip_nul (slice_to n input)) encoding ;;
  Ok (VStr s, n).

Definition Pad_parse (amount : Z) (input : bytes) : result parsed :=
  if len input <? amount then
    Raise (ValueError ("Padding too little (expected " +++ str_of_Z amount
                       +++ ", got " +++ str_of_Z (len input) +++ ")!"))
  else Ok (VNone, amount).

Definition Data_parse (amount : Z) (input : bytes) : result parsed :=
  if len input <? amount then
    Raise (ValueError ("Padding too little (expected " +++ str_of_Z amount
                       +++ ", got " +++ str_of_Z (len input) +++ ")!"))
  else Ok (VBytes (slice_to amount input), amount).

(* ------------------------------------------------------------------ *)
(** ** Records: [Struct.parse] *)
(* ------------------------------------------------------------------ *)

(** [nbytes] after the alignment step, for a stride that is an integer. *)
Definition aligned (_align nbytes : Z) : Z :=
  if truthy _align then nbytes + (_align - nbytes mod _align) else nbytes.

(** The alignment step for whatever [self._align] holds: a value that is
    true and is no integer makes [nbytes % self._align] raise. *)
Definition align_step (stride : value) (nbytes : Z) : result Z :=
  match stride with
  | VInt _align => Ok (aligned _align nbytes)
  | _ =>
      if value_truthy stride then
        Raise (TypeError ("unsupported operand type(s) for %: 'int' and '"
                          +++ value_type_name stride +++ "'"))
      else Ok nbytes
  end.

(** [setattr(self, name, val)] on a record object, [self] being the
    attributes parsing has set: [__class__], [__dict__] and [__weakref__]
    are descriptors of [object] and of [Type] that refuse a parsed value. *)
Definition object_setattr (self : list (string * value)) (name : string)
    (val : value) : result (list (string * value)) :=
  if String.eqb name "__class__" then
    Raise (TypeError ("__class__ must be set to a class, not '"
                      +++ value_type_name val +++ "' object"))
  else if String.eqb name "__dict__" then
    Raise (TypeError ("__dict__ must be set to a dictionary, not a '"
                      +++ value_type_name val +++ "'"))
  else if String.eqb name "__weakref__" then
    Raise (mk_exn "AttributeError"
             "attribute '__weakref__' of 'Type' objects is not writable")
  else Ok (setattr self name val).

(** [if hasattr(self, 'on_' + name): getattr(self, 'on_' + name)(...)].
    The class has no attribute of such a name, so the attribute is one that
    parsing has set, and a parsed value cannot be called. *)
Definition call_hook (self : list (string * value)) (name : string)
  : result unit :=
  match getitem String.eqb self ("on_" +++ name) with
  | Some hook =>
      Raise (TypeError ("'" +++ value_type_name hook
                        +++ "' object is not callable"))
  | None => Ok tt
  end.

Section StructParse.
(** The parse method of a field: [parser.parse]. *)
Context {F : Type} (parser_parse : F -> bytes -> result parsed).
(** The class attributes. *)
Variables (_align : Z) (_union : bool).

(** [self._align] and [self._union]: the attribute parsing has set on the
    object, if a field has that name, and the class attribute otherwise. *)
Definition self_align (self : list (string * value)) : value :=
  match getitem String.eqb self "_align" with
  | Some v => v
  | None => VInt _align
  end.

Definition self_union (self : list (string * value)) : bool :=
  match getitem String.eqb self "_union" with
  | Some v => value_truthy v
  | None => _union
  end.

(** The loop over [self._spec.items()]; [self] holds the attributes set so
    far. *)
Fixpoint Struct_for (spec : list (string * F)) (input : bytes) (n : Z)
    (self : list (string * value)) : result (list (string * value) * Z) :=
  match spec with
  | [] => Ok (self, n)
  | (name, parser) :: spec' =>
      '(val, _consumed) <- parser_parse parser input ;;
      nbytes <- align_step (self_align self) _consumed ;;
      let '(n, input) :=
        if self_union self then (Z.max n nbytes, input)
        else (n + nbytes, slice_from nbytes input) in
      self <- object_setattr self name val ;;
      _ <- call_hook self name ;;
      Struct_for spec' input n self
  end.

(** [Struct.parse] on an object that has not been parsed before.  The
    [_consumed] it sets in the end is the count beside the object. *)
Definition Struct_parse (cls : string) (spec : list (string * F))
    (input : bytes) : result parsed :=
  '(self, n) <- Struct_for spec input 0 [] ;;
  Ok (VObj cls (filter (fun kv => negb (String.eqb (fst kv) "_consumed"))
                       self), n).
End StructParse.

(* ------------------------------------------------------------------ *)
(** ** Choice: [Any.parse] *)
(* ------------------------------------------------------------------ *)

(** The message of one failure, the lines after the first indented. *)
Definition indent_message (message : string) : string :=
  if str_contains "010" message then
    let '(first, others) := partition_nl message in
    first +++ nl
    +++ join nl (map (fun line => "  " +++ line) (split_lines others))
  else message.

Definition Any_line (cname : string) (e : exn) : string :=
  "- " +++ cname +++ ": " +++ exn_type e +++ ": "
  +++ indent_message (exn_msg e).

Definition Any_error (failures : list (string * exn)) : exn :=
  ValueError ("Expected any of the following, nothing matched:" +++ nl
              +++ join nl (map (fun '(c, e) => Any_line c e) failures)).

Section AnyParse.
Context {D : Type} (child_parse : D -> bytes -> result parsed)
        (name_of : D -> string).
Variables (children : list D) (input : bytes).

(** The loop over [self.children], [todo] being the children still to
    try. *)
Fixpoint Any_for (todo : list D) (exceptions : list exn) : result parsed :=
  match todo with
  | [] => Raise (Any_error (combine (map name_of children) exceptions))
  | child :: todo' =>
      match child_parse child input with
      | Ok (val, _consumed) => Ok (val, _consumed)
      | Raise e => Any_for todo' (exceptions ++ [e])
      | OutOfFuel => OutOfFuel
      end
  end.

Definition Any_parse : result parsed := Any_for children [].
End AnyParse.

(* ------------------------------------------------------------------ *)
(** ** Lists: [Arr.parse] and [Seq.parse] *)
(* ------------------------------------------------------------------ *)

Section ListParse.
(** [parse(child, input)] *)
Variable child_parse : bytes -> result parsed.

Definition Arr_too_short (length n : Z) : exn :=
  ValueError ("Not enough elements in array, expected " +++ str_of_Z length
              +++ " and got " +++ str_of_Z (n - 1) +++ ".").

(** [for n in elems:], the loop variable [n] being the variable [n] that
    counts the bytes.  [finite] tells a [range], whose end ends the loop,
    from [itertools.repeat(0)], of which [elems] is only the part the fuel
    pays for. *)
Fixpoint Arr_for (length : Z) (elems : list Z) (finite : bool)
    (input : bytes) (n : Z) (res : list value) : result (list value * Z) :=
  match elems with
  | [] => if finite then Ok (res, n) else OutOfFuel
  | i :: elems' =>
      let n := i in
      if is_empty input then
        if truthy length then Raise (Arr_too_short length n)
        else Ok (res, n)
      else
        '(v, _consumed) <- child_parse input ;;
        Arr_for length elems' finite (slice_from _consumed input)
                (n + _consumed) (res ++ [v])
  end.

Definition Arr_parse (length : Z) (fuel : nat) (input : bytes)
  : result parsed :=
  '(res, n) <- (if truthy length
                then Arr_for length (range length) true input 0 []
                else Arr_for length (repeat 0 fuel) false input 0 []) ;;
  Ok (VList res, n).

(** [input and (not self.limit or n < self.limit)] *)
Definition Seq_cond (limit : Z) (input : bytes) (n : Z) : bool :=
  negb (is_empty input) && (negb (truthy limit) || (n <? limit)).

Fixpoint Seq_while (limit : Z) (fuel : nat) (input : bytes) (n : Z)
    (res : list value) : result (list value * Z) :=
  if Seq_cond limit input n then
    match fuel with
    | O => OutOfFuel
    | S fuel' =>
        match child_parse input with
        | Ok (v, _consumed) =>
            Seq_while limit fuel' (slice_from _consumed input)
                      (n + _consumed) (res ++ [v])
        | Raise _ => Ok (res, n)
        | OutOfFuel => OutOfFuel
        end
    end
  else Ok (res, n).

Definition Seq_parse (limit : Z) (fuel : nat) (input : bytes)
  : result parsed :=
  '(res, n) <- Seq_while limit fuel input 0 [] ;;
  Ok (VList res, n).
End ListParse.

(* ------------------------------------------------------------------ *)
(** ** [parse] *)
(* ------------------------------------------------------------------ *)

(** [spec.parse(input)] for a descriptor object [spec].  [Arr.parse] calls
    [to_parser(self.child)] and [parse(child, input)], which hand a
    descriptor object back as it is and call its [parse]. *)
Fixpoint parse (d : desc) (fuel : nat) (input : bytes) {struct d}
  : result parsed :=
  match d with
  | TypeObj => Type_parse Type_format input
  | IntObj n signed endian => Type_parse (Int_format n signed endian) input
  | FloatObj n => Type_parse (Float_format n) input
  | SigObj sequence => Sig_parse sequence input
  | StrObj maxlen encoding => Str_parse maxlen encoding input
  | PadObj amount => Pad_parse amount input
  | DataObj amount => Data_parse amount input
  | StructObj cls _align _union _spec =>
      Struct_parse
        (fun parser input =>
           match parser with
           | Some p => parse p fuel input
           | None => Raise (AttributeError "NoneType" "parse")
           end)
        _align _union cls _spec input
  | AnyObj children =>
      Any_parse (fun child => parse child fuel) type_name children input
  | ArrObj child length => Arr_parse (parse child fuel) length fuel input
  | SeqObj child limit => Seq_parse (parse child fuel) limit fuel input
  end.

(* ------------------------------------------------------------------ *)
(** ** Notions the properties are stated with *)
(* ------------------------------------------------------------------ *)

(** [int.from_bytes(bs, byteorder, signed=signed)], the reference codec the
    integer descriptors are compared with: the digits are read most
    significant first, and a set top bit makes a signed value negative. *)
Definition be_to_Z (bs : bytes) : Z :=
  fold_left (fun acc x => acc * 256 + byte_val x) bs 0.

Definition int_from_bytes (bs : bytes) (byteorder : endianness)
    (signed : bool) : Z :=
  let u := be_to_Z (match byteorder with
                    | BigEndian => bs
                    | LittleEndian => rev bs
                    end) in
  if signed && Z.testbit u (8 * len bs - 1) then u - 2 ^ (8 * len bs) else u.

(** The width in bytes of an integer descriptor of [n] bits. *)
Definition byte_width (n : Z) : Z := n / 8.

(** The descriptors whose count stays within the buffer: those built
    without a fixed-length string, without a record that has an alignment
    stride, and without an array. *)
Fixpoint checks_buffer (d : desc) : bool :=
  match d with
  | TypeObj | IntObj _ _ _ | FloatObj _ | SigObj _ | PadObj _ | DataObj _ =>
      true
  | StrObj maxlen _ => negb (truthy maxlen)
  | StructObj _ _align _ _spec =>
      negb (truthy _align)
      && forallb (fun f => match snd f with
                           | Some p => checks_buffer p
                           | None => true
                           end) _spec
  | AnyObj children => forallb checks_buffer children
  | ArrObj _ _ => false
  | SeqObj child _ => checks_buffer child
  end.

(** [parser.parse] of a record field, which may be [None]. *)
Definition field_parse (fuel : nat) (parser : option desc) (input : bytes)
  : result parsed :=
  match parser with
  | Some p => parse p fuel input
  | None => Raise (AttributeError "NoneType" "parse")
  end.




(** [Seq_run child_parse limit input n steps rest n']: from the buffer
    [input] with [n] bytes counted, the child parses an element once for
    each of [steps] (the element and its consumed count), each time on a
    buffer that is not empty and, if a limit is set, with fewer bytes
    counted than the limit; this leaves the buffer [rest] with [n'] bytes
    counted. *)
Inductive Seq_run (child_parse : bytes -> result parsed) (limit : Z)
  : bytes -> Z -> list parsed -> bytes -> Z -> Prop :=
| Seq_run_done input n : Seq_run child_parse limit input n [] input n
| Seq_run_step input n v c steps rest n' :
    input <> [] ->
    limit = 0 \/ n < limit ->
    child_parse input = Ok (v, c) ->
    Seq_run child_parse limit (slice_from c input) (n + c) steps rest n' ->
    Seq_run child_parse limit input n ((v, c) :: steps) rest n'.

(** The descriptors that hold no record object. *)
Fixpoint record_free (d : desc) : bool :=
  match d with
  | TypeObj | IntObj _ _ _ | FloatObj _ | SigObj _ | StrObj _ _ | PadObj _
  | DataObj _ => true
  | StructObj _ _ _ _ => false
  | AnyObj children => forallb record_free children
  | ArrObj child _ => record_free child
  | SeqObj child _ => record_free child
  end.

(** The descriptors in which every object is parsed once at most for one
    parse of the whole: no record object is below an [Arr] or a [Seq]. *)
Fixpoint single_use (d : desc) : bool :=
  match d with
  | TypeObj | IntObj _ _ _ | FloatObj _ | SigObj _ | StrObj _ _ | PadObj _
  | DataObj _ => true
  | StructObj _ _ _ _spec =>
      forallb (fun f => match snd f with
                        | Some p => single_use p
                        | None => true
                        end) _spec
  | AnyObj children => forallb single_use children
  | ArrObj child _ => record_free child
  | SeqObj child _ => record_free child
  end.

(** The names of the attributes of a record object that parsing reads or
    that [setattr] treats apart. *)
Definition reserved_names : list string :=
  ["_align"; "_union"; "_spec"; "_consumed"; "parse";
   "__class__"; "__dict__"; "__weakref__"].

(** Field names that leave the parse of their record alone: none is
    reserved, and none is the [on_<field>] of a field. *)
Definition plain_names (names : list string) : bool :=
  forallb (fun name =>
             negb (existsb (String.eqb name) reserved_names)
             && negb (existsb (String.eqb ("on_" +++ name)) names))
          names.

(** The descriptors whose records all have plain field names. *)
Fixpoint plain_fields (d : desc) : bool :=
  match d with
  | TypeObj | IntObj _ _ _ | FloatObj _ | SigObj _ | StrObj _ _ | PadObj _
  | DataObj _ => true
  | StructObj _ _ _ _spec =>
      plain_names (map fst _spec)
      && forallb (fun f => match snd f with
                           | Some p => plain_fields p
                           | None => true
                           end) _spec
  | AnyObj children => forallb plain_fields children
  | ArrObj child _ => plain_fields child
  | SeqObj child _ => plain_fields child
  end.

(** A parse function whose successful parses stay within the buffer. *)
Definition within_buffer (p : bytes -> result parsed) : Prop :=
  forall input v c, p input = Ok (v, c) -> c <= len input.

(** [p2] gives every result that [p1] reaches. *)
Definition extends (p1 p2 : bytes -> result parsed) : Prop :=
  forall input r, p1 input = r -> r <> OutOfFuel -> p2 input = r.

(** Induction on descriptors, through the fields of records and the
    candidates of choices. *)
Section DescInd.
Variable P : desc -> Prop.
Definition P_field (f : string * option desc) : Prop :=
  match snd f with Some p => P p | None => True end.
Hypothesis HType : P TypeObj.
Hypothesis HInt : forall n signed endian, P (IntObj n signed endian).
Hypothesis HFloat : forall n, P (FloatObj n).
Hypothesis HSig : forall sequence, P (SigObj sequence).
Hypothesis HStr : forall maxlen encoding, P (StrObj maxlen encoding).
Hypothesis HPad : forall amount, P (PadObj amount).
Hypothesis HData : forall amount, P (DataObj amount).
Hypothesis HStruct : forall cls _align _union _spec,
    Forall P_field _spec -> P (StructObj cls _align _union _spec).
Hypothesis HAny : forall children,
    Forall P children -> P (AnyObj children).
Hypothesis HArr : forall child length, P child -> P (ArrObj child length).
Hypothesis HSeq : forall child limit, P child -> P (SeqObj child limit).

Fixpoint desc_induction (d : desc) : P d :=
  match d with
  | TypeObj => HType
  | IntObj n signed endian => HInt n signed endian
  | FloatObj n => HFloat n
  | SigObj sequence => HSig sequence
  | StrObj maxlen encoding => HStr maxlen encoding
  | PadObj amount => HPad amount
  | DataObj amount => HData amount
  | StructObj cls _align _union _spec =>
      HStruct cls _align _union _spec
        ((fix fields (l : list (string * option desc)) : Forall P_field l :=
            match l with
            | [] => Forall_nil _
            | f :: l' =>
                Forall_cons f
                  (match f return P_field f with
                   | (_, Some p) => desc_induction p
                   | (_, None) => I
                   end)
                  (fields l')
            end) _spec)
  | AnyObj children =>
      HAny children
        ((fix candidates (l : list desc) : Forall P l :=
            match l with
            | [] => Forall_nil _
            | c :: l' => Forall_cons c (desc_induction c) (candidates l')
            end) children)
  | ArrObj child length => HArr child length (desc_induction child)
  | SeqObj child limit => HSeq child limit (desc_induction child)
  end.
End DescInd.

(* ------------------------------------------------------------------ *)
(** ** Notions for the properties beyond the claims *)
(* ------------------------------------------------------------------ *)

(** The sum of a list of counts. *)
Definition Zsum (l : list Z) : Z := fold_right Z.add 0 l.

(** [Struct_run fuel _align spec input results rest]: in struct mode the
    fields of [spec] parse one after the other, the first on [input] and
    each next one on what the aligned count of the one before leaves, with
    [results] for values and consumed counts; [rest] is the buffer left
    after the last field. *)
Inductive Struct_run (fuel : nat) (_align : Z)
  : list (string * option desc) -> bytes -> list parsed -> bytes -> Prop :=
| Struct_run_nil input : Struct_run fuel _align [] input [] input
| Struct_run_cons name parser spec input val c results rest :
    field_parse fuel parser input = Ok (val, c) ->
    Struct_run fuel _align spec (slice_from (aligned _align c) input)
               results rest ->
    Struct_run fuel _align ((name, parser) :: spec) input
               ((val, c) :: results) rest.

(** [Struct_at fuel _align input off spec results]: the fields of [spec]
    parse at their offsets in the one buffer [input], the first at [off]
    and each next one as many bytes further as the aligned count of the one
    before, which is not negative. *)
Inductive Struct_at (fuel : nat) (_align : Z) (input : bytes)
  : Z -> list (string * option desc) -> list parsed -> Prop :=
| Struct_at_nil off : Struct_at fuel _align input off [] []
| Struct_at_cons off name parser spec val c results :
    field_parse fuel parser (slice_from off input) = Ok (val, c) ->
    0 <= aligned _align c ->
    Struct_at fuel _align input (off + aligned _align c) spec results ->
    Struct_at fuel _align input off ((name, parser) :: spec)
              ((val, c) :: results).

(** [Arr_run child_parse input steps rest]: the child parses an element on
    a buffer that is not empty, once for each of [steps] (the element and
    its consumed count), from [input] down to [rest]. *)
Inductive Arr_run (child_parse : bytes -> result parsed)
  : bytes -> list parsed -> bytes -> Prop :=
| Arr_run_done input : Arr_run child_parse input [] input
| Arr_run_step input v c steps rest :
    input <> [] ->
    child_parse input = Ok (v, c) ->
    Arr_run child_parse (slice_from c input) steps rest ->
    Arr_run child_parse input ((v, c) :: steps) rest.

(** The descriptors configured with non-negative numbers only: amounts,
    maximum lengths, strides, counts and limits. *)
Fixpoint nonneg_config (d : desc) : bool :=
  match d with
  | TypeObj | IntObj _ _ _ | FloatObj _ | SigObj _ => true
  | StrObj maxlen _ => 0 <=? maxlen
  | PadObj amount | DataObj amount => 0 <=? amount
  | StructObj _ _align _ _spec =>
      (0 <=? _align)
      && forallb (fun f => match snd f with
                           | Some p => nonneg_config p
                           | None => true
                           end) _spec
  | AnyObj children => forallb nonneg_config children
  | ArrObj child length => (0 <=? length) && nonneg_config child
  | SeqObj child limit => (0 <=? limit) && nonneg_config child
  end.

(** A parse function whose successful parses consume no negative count. *)
Definition nonneg_count (p : bytes -> result parsed) : Prop :=
  forall input v c, p input = Ok (v, c) -> 0 <= c.

(** The lines [Any.parse] writes for one candidate: the dash, the class name
    of the candidate, the class name of its exception and the first line of
    the message; then the other lines of the message, pushed right by two
    spaces. *)
Definition Any_entry_lines (failure : string * exn) : list string :=
  match split_lines (exn_msg (snd failure)) with
  | first :: others =>
      ("- " +++ fst failure +++ ": " +++ exn_type (snd failure) +++ ": "
       +++ first)
      :: map (fun line => "  " +++ line) others
  | [] => []
  end.

(** A name that holds no newline, as class names do. *)
Definition one_line (s : string) : Prop := str_contains "010" s = false.

(* ------------------------------------------------------------------ *)
(** ** Class declarations: [MetaStruct] *)
(* ------------------------------------------------------------------ *)

(** The shape of a record: its ordered fields. *)
Definition shape : Type := list (string * option desc).

(** What a name of a class body or a keyword of a class statement holds:
    a descriptor object, [None], a number, a truth value, the field mapping
    that [MetaStruct.__new__] stores, or any other object. *)
Inductive classattr : Type :=
| AttrDesc (d : desc)
| AttrNone
| AttrInt (z : Z)
| AttrBool (x : bool)
| AttrSpec (spec : shape)
| AttrOther (what : string).

(** [d[key] = v] on an ordered dictionary: a key that is there keeps its
    place, a new one goes last. *)
Fixpoint dict_set {V} (d : list (string * V)) (key : string) (v : V)
  : list (string * V) :=
  match d with
  | [] => [(key, v)]
  | (k, v0) :: d' =>
      if String.eqb k key then (k, v) :: d'
      else (k, v0) :: dict_set d' key v
  end.

(** [del d[key]] *)
Fixpoint dict_del {V} (d : list (string * V)) (key : string)
  : list (string * V) :=
  match d with
  | [] => []
  | (k, v0) :: d' =>
      if String.eqb k key then d' else (k, v0) :: dict_del d' key
  end.

(** [d.update(items)] *)
Definition dict_update {V} (d items : list (string * V))
  : list (string * V) :=
  fold_left (fun d kv => dict_set d (fst kv) (snd kv)) items d.

(** [isinstance(value, Type) or value is None], with the field the value
    then is. *)
Definition as_field (value : classattr) : option (option desc) :=
  match value with
  | AttrDesc d => Some (Some d)
  | AttrNone => Some None
  | _ => None
  end.

Definition is_field (value : classattr) : bool :=
  match as_field value with Some _ => true | None => false end.


(** The first loop of [MetaStruct.__new__]: the mappings of the bases,
    merged in order; a base without [_spec] gives [None]. *)
Definition inherited_spec (bases : list (option shape)) : shape :=
  fold_left (fun spec base =>
               dict_update spec (match base with Some s => s | None => [] end))
            bases [].

(** The second loop, over a copy of the namespace: a field goes into the
    mapping and leaves the namespace. *)
Definition collect_fields (items : list (string * classattr))
    (spec : shape) (attrs : list (string * classattr))
  : shape * list (string * classattr) :=
  fold_left (fun st kv =>
               match as_field (snd kv) with
               | Some f => (dict_set (fst st) (fst kv) f,
                            dict_del (snd st) (fst kv))
               | None => st
               end)
            items (spec, attrs).

(** [MetaStruct.__new__], up to the call of [type.__new__]: the field
    mapping and the namespace the class is made of. *)
Definition MetaStruct_new (bases : list (option shape))
    (attrs : list (string * classattr))
  : shape * list (string * classattr) :=
  let '(spec, attrs') := collect_fields attrs (inherited_spec bases) attrs in
  (spec, dict_set attrs' "_spec" (AttrSpec spec)).

(** The fields a namespace declares, in order. *)
Fixpoint declared_fields (attrs : list (string * classattr)) : shape :=
  match attrs with
  | [] => []
  | (k, v) :: attrs' =>
      match as_field v with
      | Some f => (k, f) :: declared_fields attrs'
      | None => declared_fields attrs'
      end
  end.

Definition has_key {V} (d : list (string * V)) (key : string) : bool :=
  existsb (String.eqb key) (map fst d).

(** An entry of the inherited mapping once the class body is through: the
    field the body declares under its name, or else the inherited one. *)
Definition overridden (fields : shape) (kv : string * option desc)
  : string * option desc :=
  (fst kv, match getitem String.eqb fields (fst kv) with
           | Some f => f
           | None => snd kv
           end).


(* ------------------------------------------------------------------ *)
(** ** Resolving a specification: [to_parser] and [parse] *)
(* ------------------------------------------------------------------ *)

(** The classes of the module, and a record class with its shape and
    whether the [__init__] it inherits is that of [Union] (or else that of
    [Struct]); a record class that defines an [__init__] of its own is not
    among them. *)
Inductive pyclass : Type :=
| CType | CInt | CUInt | CFloat | CDouble | CSig | CStr | CPad | CData
| CAny | CArr | CSeq
| CRecord (from_Union : bool) (cls : string) (_align : Z) (_union : bool)
          (_spec : shape).

(** The argument of [to_parser]: a descriptor object, a class that derives
    from [Type], a class that does not (known by its [repr]), or an object
    that is neither a descriptor nor a class. *)
Inductive pyarg : Type :=
| ArgObj (d : desc)
| ArgClass (c : pyclass)
| ArgForeignClass (repr : string)
| ArgOther.

Definition missing_argument (cls arg : string) : exn :=
  TypeError (cls +++ ".__init__() missing 1 required positional argument: '"
             +++ arg +++ "'").

(** [object.__init__] with keyword arguments left over. *)
Definition object_init (kwargs : list string) : result unit :=
  if is_empty kwargs then Ok tt
  else Raise (TypeError ("object.__init__() takes exactly one argument "
                         +++ "(the instance to initialize)")).

(** [Struct.__init__], which hands its keyword arguments on. *)
Definition Struct_init (kwargs : list string) (cls : string) (_align : Z)
    (_union : bool) (_spec : shape) : result desc :=
  _ <- object_init kwargs ;;
  Ok (StructObj cls _align _union _spec).

(** [Union.__init__], which adds [union=True] to them. *)
Definition Union_init (kwargs : list string) (cls : string) (_align : Z)
    (_union : bool) (_spec : shape) : result desc :=
  Struct_init ("union" :: kwargs) cls _align _union _spec.

(** [spec()]: the call of a class without arguments. *)
Definition instantiate (c : pyclass) : result desc :=
  match c with
  | CType => Ok TypeObj
  | CInt | CUInt => Raise (missing_argument "Int" "n")
  | CFloat => Ok (Float 32 "little")
  | CDouble => Ok (Float 64 "little")
  | CSig => Raise (missing_argument "Sig" "sequence")
  | CStr => Ok (Str 0 utf_8)
  | CPad => Ok (Pad 0)
  | CData => Ok (Data 0)
  | CAny => Raise (missing_argument "Any" "children")
  | CArr => Raise (missing_argument "Arr" "child")
  | CSeq => Raise (missing_argument "Seq" "child")
  | CRecord false cls _align _union _spec =>
      Struct_init [] cls _align _union _spec
  | CRecord true cls _align _union _spec =>
      Union_init [] cls _align _union _spec
  end.

Definition to_parser (spec : pyarg) : result desc :=
  match spec with
  | ArgObj d => Ok d
  | ArgClass c => instantiate c
  | ArgForeignClass repr =>
      Raise (ValueError ("Could not figure out specification from argument "
                         +++ repr +++ "."))
  | ArgOther => Raise (TypeError "issubclass() arg 1 must be a class")
  end.

(** [parse(spec, input)] *)
Definition parse_spec (spec : pyarg) (fuel : nat) (input : bytes)
  : result parsed :=
  d <- to_parser spec ;;
  parse d fuel input.

(* ------------------------------------------------------------------ *)
(** ** Primitive descriptors *)
(* ------------------------------------------------------------------ *)

(** Closes a case whose result is [OutOfFuel] against the hypothesis that
    it is not. *)
Ltac unsettled :=
  exfalso;
  match goal with
  | H : _ <> OutOfFuel |- _ => apply H; subst; reflexivity
  end.

(** C5.  [Data.__init__] stores 0 whatever amount it is given, so a raw-data
    descriptor built with a byte count [k] yields no bytes and consumes none,
    on every buffer: on [b'abc'] a descriptor built with 2 yields [b''] and 0
    consumed bytes, not [b'ab'] and 2. *)
Theorem Data_configured_amount_dropped :
  (forall k fuel input, parse (Data k) fuel input = Ok (VBytes [], 0))
  /\ (forall fuel, parse (Data 2) fuel (b "abc") = Ok (VBytes [], 0)).
Proof.
  split.
  - intros k fuel input. cbn. unfold Data_parse.
    replace (len input <? 0) with false
      by (symmetry; apply Z.ltb_ge; unfold len; lia).
    reflexivity.
  - intros fuel. reflexivity.
Qed.

(** C4.  A string descriptor without maximum length raises on
    [b'hi\x00extra'], as on every buffer: it searches the buffer for a
    [str], which [bytes.find] refuses with a [TypeError], so neither the text
    nor a consumed count comes back. *)
Theorem Str_nul_terminated_raises :
  forall encoding fuel,
    (forall input, parse (Str 0 encoding) fuel input = Raise find_TypeError)
    /\ parse (Str 0 encoding) fuel (b "hi" ++ [x00] ++ b "extra")
       = Raise find_TypeError.
Proof. intros encoding fuel. split; reflexivity. Qed.

(** The scenarios of the specification on an unsigned integer and on a
    signature. *)
Example UInt_32_one :
  forall fuel,
    parse (UInt 32 "little") fuel [x01; x00; x00; x00] = Ok (VInt 1, 4).
Proof. reflexivity. Qed.

Example Int_32_minus_one :
  forall fuel,
    parse (Int 32 true "little") fuel [xff; xff; xff; xff] = Ok (VInt (-1), 4).
Proof. reflexivity. Qed.

Example Sig_PK_matches :
  forall fuel,
    parse (Sig (b "PK")) fuel (b "PKxyz") = Ok (VBytes (b "PK"), 2).
Proof. reflexivity. Qed.

Example Sig_PK_mismatch :
  forall fuel,
    parse (Sig (b "PK")) fuel (b "XXxyz")
    = Raise (ValueError "b'XX' does not match expected b'PK'!").
Proof. reflexivity. Qed.

(** *** Integers against the reference codec *)

Lemma byte_val_range (x : byte) : 0 <= byte_val x < 256.
Proof.
  unfold byte_val. pose proof (Byte.to_N_bounded x) as H.
  split; [apply N2Z.is_nonneg|].
  apply N.lt_succ_r in H. apply N2Z.inj_lt in H. simpl in H. exact H.
Qed.

Lemma len_cons {A} (x : A) (l : list A) : len (x :: l) = len l + 1.
Proof. unfold len. simpl List.length. lia. Qed.

Lemma len_nonneg {A} (l : list A) : 0 <= len l.
Proof. unfold len. lia. Qed.

Lemma len_rev {A} (l : list A) : len (rev l) = len l.
Proof. unfold len. now rewrite length_rev. Qed.

Lemma le_to_Z_range (bs : bytes) : 0 <= le_to_Z bs < 2 ^ (8 * len bs).
Proof.
  induction bs as [|x bs IH]; cbn [le_to_Z].
  - unfold len; simpl; lia.
  - rewrite len_cons.
    replace (8 * (len bs + 1)) with (8 + 8 * len bs) by lia.
    rewrite Z.pow_add_r by (pose proof (len_nonneg bs); lia).
    change (2 ^ 8) with 256.
    pose proof (byte_val_range x). lia.
Qed.

Lemma be_to_Z_rev (bs : bytes) : be_to_Z (rev bs) = le_to_Z bs.
Proof.
  unfold be_to_Z. induction bs as [|x bs IH]; [reflexivity|].
  cbn [rev le_to_Z]. rewrite fold_left_app. cbn [fold_left].
  rewrite IH. lia.
Qed.

Lemma testbit_top (u m : Z) :
  0 <= m -> 0 <= u < 2 ^ (m + 1) -> Z.testbit u m = (2 ^ m <=? u).
Proof.
  intros Hm [Hu0 Hu].
  rewrite Z.testbit_odd, Z.shiftr_div_pow2 by assumption.
  rewrite Z.pow_add_r in Hu by lia. change (2 ^ 1) with 2 in Hu.
  assert (Hp : 0 < 2 ^ m) by (apply Z.pow_pos_nonneg; lia).
  destruct (Z.leb_spec (2 ^ m) u) as [Hle|Hlt].
  - replace (u / 2 ^ m) with 1; [reflexivity|].
    apply Z.div_unique with (r := u - 2 ^ m); lia.
  - rewrite Z.div_small by lia. reflexivity.
Qed.

Lemma slice_to_all {A} (l : list A) : slice_to (len l) l = l.
Proof.
  unfold slice_to. pose proof (len_nonneg l) as H.
  apply Z.leb_le in H. rewrite H. unfold len. rewrite Nat2Z.id.
  apply firstn_all.
Qed.

(** [struct.unpack] of a whole buffer agrees with [int.from_bytes]. *)
Lemma unpack_from_bytes (order code : ascii) (size : Z) (data : bytes) :
  In order ["<"; ">"; "="]%char ->
  code_size code = Some size ->
  len data = size ->
  unpack (String order (String code EmptyString)) data
  = Ok (int_from_bytes data (format_order order) (code_signed code)).
Proof.
  intros Horder Hcode Hlen.
  assert (Hsize : 0 < size).
  { destruct code as [[] [] [] [] [] [] [] []];
      simpl in Hcode; inversion Hcode; lia. }
  unfold unpack.
  assert (Hcalc : calcsize (String order (String code EmptyString)) = Ok size).
  { simpl in Horder.
    destruct Horder as [<-|[<-|[<-|[]]]]; simpl; now rewrite Hcode. }
  rewrite Hcalc. simpl bind.
  rewrite Hlen, Z.eqb_refl. simpl negb. cbv iota.
  unfold int_from_bytes. f_equal.
  set (u := le_to_Z _).
  assert (Hu : be_to_Z (match format_order order with
                        | BigEndian => data
                        | LittleEndian => rev data
                        end) = u).
  { subst u. destruct (format_order order).
    - apply be_to_Z_rev.
    - rewrite <- be_to_Z_rev. now rewrite rev_involutive. }
  rewrite Hu, Hlen.
  assert (Hrange : 0 <= u < 2 ^ (8 * size - 1 + 1)).
  { replace (8 * size - 1 + 1) with (8 * size) by lia. subst u.
    destruct (format_order order).
    - rewrite <- Hlen. apply le_to_Z_range.
    - rewrite <- Hlen, <- (len_rev data). apply le_to_Z_range. }
  rewrite testbit_top by (try lia; exact Hrange).
  reflexivity.
Qed.

Lemma ENDIAN_MAP_values (endian : string) (e : ascii) :
  getitem String.eqb ENDIAN_MAP endian = Some e ->
  In e ["<"; ">"; "="]%char.
Proof.
  unfold ENDIAN_MAP. cbn [getitem].
  destruct (String.eqb "little" endian); [intros [= <-]; simpl; auto|].
  destruct (String.eqb "big" endian); [intros [= <-]; simpl; auto|].
  destruct (String.eqb "native" endian); [intros [= <-]; simpl; auto|].
  discriminate.
Qed.

Lemma SIZE_MAP_values (n : Z) (kind : ascii) :
  getitem Z.eqb SIZE_MAP n = Some kind ->
  In (n, kind) SIZE_MAP /\ code_size kind <> None
  /\ code_signed kind = true /\ code_signed (upper kind) = false
  /\ code_size (upper kind) = code_size kind.
Proof.
  unfold SIZE_MAP. cbn [getitem].
  repeat (match goal with
          | |- context [Z.eqb ?k n] =>
              destruct (Z.eqb_spec k n) as [<-|_];
              [intros [= <-]; repeat split; simpl; auto 10; discriminate|]
          end).
  discriminate.
Qed.

(** On a buffer of exactly the size of its format, an integer descriptor
    consumes the buffer whole and decodes it as the reference codec does. *)
Lemma Int_parse_format_width (n : Z) (signed : bool) (endian : string)
    (e kind : ascii) (size : Z) (fuel : nat) (input : bytes) :
  getitem String.eqb ENDIAN_MAP endian = Some e ->
  getitem Z.eqb SIZE_MAP n = Some kind ->
  code_size kind = Some size ->
  len input = size ->
  parse (Int n signed endian) fuel input
  = Ok (VInt (int_from_bytes input (format_order e) signed), size).
Proof.
  intros He Hkind Hsize Hlen.
  pose proof (ENDIAN_MAP_values _ _ He) as Hin.
  destruct (SIZE_MAP_values _ _ Hkind) as (_ & _ & Hs & Hu & Hup).
  set (code := if negb signed then upper kind else kind).
  assert (Hcode : code_size code = Some size /\ code_signed code = signed).
  { subst code. destruct signed; simpl; [auto|]. rewrite Hup. auto. }
  destruct Hcode as [Hcsize Hcsigned].
  cbn [Int parse]. unfold Type_parse, Int_format. rewrite He, Hkind.
  fold code. cbn [bind]. cbv beta iota.
  assert (Hcalc : calcsize (String e (String code EmptyString)) = Ok size).
  { simpl in Hin.
    destruct Hin as [<-|[<-|[<-|[]]]]; simpl; now rewrite Hcsize. }
  rewrite Hcalc. cbn [bind].
  rewrite <- Hlen, slice_to_all.
  rewrite (unpack_from_bytes e code size) by (auto; congruence).
  cbn [bind]. now rewrite Hcsigned, Hlen.
Qed.

(** For the widths of 8, 16 and 32 bits that size is the width: a buffer of
    exactly the width is consumed whole and decoded as the reference codec
    decodes it. *)
Lemma Int_parse_from_bytes (n : Z) (signed : bool) (endian : string)
    (e : ascii) (fuel : nat) (input : bytes) :
  In n [8; 16; 32] ->
  getitem String.eqb ENDIAN_MAP endian = Some e ->
  len input = byte_width n ->
  parse (Int n signed endian) fuel input
  = Ok (VInt (int_from_bytes input (format_order e) signed), byte_width n).
Proof.
  intros Hn He Hlen. simpl in Hn.
  destruct Hn as [<-|[<-|[<-|[]]]];
    eapply Int_parse_format_width; eauto; reflexivity.
Qed.

(** C6.  A 64-bit descriptor does not consume its full width: [SIZE_MAP]
    gives it the format code [l], which is 4 bytes wide in a format with an
    explicit byte order, so on a buffer of 8 bytes it reads the first 4 and
    records 4 consumed bytes, where the reference codec decodes all 8. *)
Theorem Int_64_reads_four_bytes :
  forall fuel,
    let input := [x01; x00; x00; x00; x01; x00; x00; x00] in
    len input = byte_width 64
    /\ parse (Int 64 true "little") fuel input = Ok (VInt 1, 4)
    /\ int_from_bytes input LittleEndian true = 4294967297.
Proof. intros fuel. repeat split. Qed.

(* ------------------------------------------------------------------ *)
(** ** Arrays *)
(* ------------------------------------------------------------------ *)

Lemma range_length (N : Z) : List.length (range N) = Z.to_nat N.
Proof. unfold range. now rewrite length_map, length_seq. Qed.

Lemma range_last (N : Z) : 0 < N -> last (range N) 0 = N - 1.
Proof.
  intros HN. unfold range.
  replace (Z.to_nat N) with (S (Z.to_nat (N - 1))) by lia.
  rewrite seq_S, map_app. cbn [map]. rewrite last_last. lia.
Qed.

(** The loop over a [range]: it returns once every index is used, with one
    element per index, and with the last index plus the last element's
    consumed count as the byte count. *)
Lemma Arr_for_range (child_parse : bytes -> result parsed) (length : Z)
    (elems : list Z) :
  forall input n res res' n',
    Arr_for child_parse length elems true input n res = Ok (res', n') ->
    truthy length = true ->
    List.length res' = (List.length res + List.length elems)%nat
    /\ match elems with
       | [] => n' = n
       | _ => exists rest v c,
                child_parse rest = Ok (v, c) /\ n' = last elems 0 + c
       end.
Proof.
  induction elems as [|i elems IH]; intros input n res res' n' Hloop Hlength;
    cbn [Arr_for] in Hloop.
  - injection Hloop as <- <-. split; [simpl; lia | reflexivity].
  - rewrite Hlength in Hloop.
    destruct (is_empty input); [discriminate|].
    destruct (child_parse input) as [[v c]| |] eqn:Hparse;
      cbn [bind] in Hloop; try discriminate.
    destruct (IH _ _ _ _ _ Hloop Hlength) as [Hlen Hcount].
    split; [rewrite Hlen, length_app; simpl; lia|].
    destruct elems as [|j elems].
    + exists input, v, c. split; [exact Hparse | simpl; lia].
    + exact Hcount.
Qed.

(** With a count [N] configured, a parse that succeeds returns [N]
    elements, and the consumed count it records is [N - 1] plus the count of
    one element. *)
Lemma Arr_fixed_result (child : desc) (N : Z) (fuel : nat) (input : bytes)
    (v : value) (n : Z) :
  0 < N ->
  parse (Arr child N) fuel input = Ok (v, n) ->
  exists res, v = VList res /\ len res = N
    /\ exists rest v' c,
         parse child fuel rest = Ok (v', c) /\ n = N - 1 + c.
Proof.
  intros HN. cbn [Arr parse]. unfold Arr_parse.
  assert (Hlength : truthy N = true)
    by (unfold truthy; apply negb_true_iff, Z.eqb_neq; lia).
  rewrite Hlength.
  destruct (Arr_for _ _ _ _ _ _ _) as [[res n']| |] eqn:Hloop; cbn [bind];
    try discriminate.
  intros [= <- <-]. exists res. split; [reflexivity|].
  destruct (Arr_for_range _ _ _ _ _ _ _ _ Hloop Hlength) as [Hlen Hcount].
  split; [unfold len; rewrite Hlen, range_length; simpl; lia|].
  destruct (range N) as [|i elems] eqn:Hrange.
  - pose proof (range_length N) as Hl. rewrite Hrange in Hl. simpl in Hl. lia.
  - rewrite <- Hrange, range_last in Hcount by exact HN. exact Hcount.
Qed.

(** An array that runs out of bytes before its count is reached raises; the
    message gives the index of the missing element less one. *)
Example Arr_not_enough_elements :
  forall fuel,
    parse (Arr (Int 16 true "little") 3) fuel [x01; x00; x02; x00]
    = Raise (ValueError
               "Not enough elements in array, expected 3 and got 1.").
Proof. reflexivity. Qed.

(** Without a count the array stops at the end of the buffer, and the loop
    variable leaves 0 as the consumed count. *)
Example Arr_unbounded_counts_zero :
  parse (Arr (Int 16 true "little") 0) 3 [x01; x00; x02; x00]
  = Ok (VList [VInt 1; VInt 2], 0).
Proof. reflexivity. Qed.

(** C1.  The consumed count of an array is not the sum of its elements'
    counts: the loop variable of the [for] is the byte counter itself, so
    what is left at the end is the last index plus the last element's count.
    Two 16-bit integers on a buffer of 4 bytes come back as a list of
    length 2, each having consumed 2 bytes, with 3 bytes recorded. *)
Theorem Arr_consumed_last_index_plus_last :
  forall fuel,
    let child := Int 16 true "little" in
    parse child fuel [x01; x00; x02; x00] = Ok (VInt 1, 2)
    /\ parse child fuel [x02; x00] = Ok (VInt 2, 2)
    /\ parse (Arr child 2) fuel [x01; x00; x02; x00]
       = Ok (VList [VInt 1; VInt 2], 3).
Proof. intros fuel. repeat split. Qed.

(* ------------------------------------------------------------------ *)
(** ** Records *)
(* ------------------------------------------------------------------ *)

(** A count that is a multiple of the stride is still padded, by a whole
    stride. *)
Lemma aligned_multiple (A c : Z) :
  A <> 0 -> c mod A = 0 -> aligned A c = c + A.
Proof.
  intros HA Hc. unfold aligned, truthy.
  apply Z.eqb_neq in HA. rewrite HA. simpl. rewrite Hc. lia.
Qed.

(** C2.  With a stride of 4, a field that consumes 4 bytes is followed by 4
    bytes of padding: the next field is read 8 bytes further, not 4. *)
Theorem Struct_align_pads_multiple :
  forall fuel,
    let S := StructObj "S" 4 false
               [("a", Some (Int 32 true "little"));
                ("b", Some (Int 8 true "little"))] in
    parse (Int 32 true "little") fuel
          [x01; x00; x00; x00; x02; x00; x00; x00; x03] = Ok (VInt 1, 4)
    /\ aligned 4 4 = 8
    /\ parse S fuel [x01; x00; x00; x00; x02; x00; x00; x00; x03]
       = Ok (VObj "S" [("a", VInt 1); ("b", VInt 3)], 12).
Proof. intros fuel. repeat split. Qed.

(** Fields named after what the loop reads of the object.  With [on_a]
    before [a], the value of [on_a] is found as the hook of [a] and
    called. *)
Example Struct_field_taken_for_hook :
  forall fuel,
    parse (StructObj "S" 0 false [("on_a", Some (Int 8 true "little"));
                                  ("a", Some (Int 8 true "little"))])
          fuel [x01; x02]
    = Raise (TypeError "'int' object is not callable").
Proof. reflexivity. Qed.

(** A field named [_union] that parses to [None] ends the union mode of its
    record: the next field is added to the count, which was the maximum up
    to there. *)
Example Struct_field_sets_union :
  forall fuel,
    parse (StructObj "U" 0 true [("a", Some (Int 8 true "little"));
                                 ("_union", Some (Pad 0));
                                 ("b", Some (Int 16 true "little"))])
          fuel [x01; x00]
    = Ok (VObj "U" [("a", VInt 1); ("_union", VNone); ("b", VInt 1)], 3).
Proof. reflexivity. Qed.

(** A field named [_align] that parses to bytes makes the alignment step of
    the next field raise. *)
Example Struct_stride_not_a_number :
  forall fuel,
    parse (StructObj "S" 0 false [("_align", Some (Sig (b "ab")));
                                  ("b", Some (Int 8 true "little"))])
          fuel (b "abc")
    = Raise (TypeError "unsupported operand type(s) for %: 'int' and 'bytes'").
Proof. reflexivity. Qed.

(** [__class__] cannot be set to a parsed value, and what a field named
    [_consumed] has set is overwritten by the count. *)
Example Struct_field_refused :
  forall fuel,
    parse (StructObj "S" 0 false [("__class__", Some (Int 8 true "little"))])
          fuel [x01]
    = Raise (TypeError "__class__ must be set to a class, not 'int' object")
    /\ parse (StructObj "S" 0 false
                        [("_consumed", Some (Int 8 true "little"))])
             fuel [x05]
       = Ok (VObj "S" [], 1).
Proof. intros fuel. split; reflexivity. Qed.

(* ------------------------------------------------------------------ *)
(** ** The consumed count and the length of the buffer *)
(* ------------------------------------------------------------------ *)

Lemma parse_Struct cls _align _union _spec fuel input :
  parse (StructObj cls _align _union _spec) fuel input
  = Struct_parse (field_parse fuel) _align _union cls _spec input.
Proof. reflexivity. Qed.

(** *** Records with plain field names

    With plain field names the object holds no attribute that the loop
    reads: the stride and the mode are those of the class, [setattr] sets
    the attribute and no hook is found. *)

Lemma existsb_eqb_In (x : string) (l : list string) :
  existsb (String.eqb x) l = true <-> In x l.
Proof.
  rewrite existsb_exists. split.
  - intros (y & Hin & Heq). apply String.eqb_eq in Heq. now subst.
  - intros Hin. exists x. split; [exact Hin | apply String.eqb_refl].
Qed.

Lemma plain_names_spec (names : list string) :
  plain_names names = true ->
  forall name, In name names ->
    ~ In name reserved_names /\ ~ In ("on_" +++ name) names.
Proof.
  unfold plain_names. rewrite forallb_forall. intros Hall name Hin.
  specialize (Hall name Hin). apply andb_true_iff in Hall as [Hres Hhook].
  apply negb_true_iff in Hres, Hhook. split; intros Habs.
  - apply existsb_eqb_In in Habs. congruence.
  - apply existsb_eqb_In in Habs. congruence.
Qed.

Lemma getitem_not_in {V} (d : list (string * V)) (key : string) :
  ~ In key (map fst d) -> getitem String.eqb d key = None.
Proof.
  induction d as [|[k v] d IH]; intros Hnot; [reflexivity|].
  cbn [getitem]. cbn [map fst In] in Hnot.
  destruct (String.eqb_spec k key) as [->|_]; [tauto|].
  apply IH. tauto.
Qed.

Lemma setattr_keys (self : list (string * value)) (name : string)
    (val : value) (names : list string) :
  In name names -> incl (map fst self) names ->
  incl (map fst (setattr self name val)) names.
Proof.
  intros Hname. induction self as [|[k v] self IH]; intros Hself x;
    cbn [setattr map fst In].
  - intros [<-|[]]. exact Hname.
  - destruct (String.eqb_spec k name) as [->|_]; cbn [map fst In].
    + intros [<-|Hx]; [exact Hname|]. apply Hself. now right.
    + intros [<-|Hx]; [apply Hself; now left|].
      apply IH; [|exact Hx]. intros y Hy. apply Hself. now right.
Qed.


Lemma combine_keys {A B} (names : list A) (vals : list B) :
  incl (map fst (combine names vals)) names.
Proof.
  revert vals. induction names as [|name names IH]; intros [|val vals] x;
    cbn [combine map fst In]; try contradiction.
  intros [<-|Hx]; [now left|]. right. now apply (IH vals).
Qed.

(** The attributes shown for a record are all those the fields have set,
    when no field is named [_consumed]. *)
Lemma shown_attributes (self : list (string * value)) :
  ~ In "_consumed" (map fst self) ->
  filter (fun kv => negb (String.eqb (fst kv) "_consumed")) self = self.
Proof.
  induction self as [|[k v] self IH]; intros Hnot; [reflexivity|].
  cbn [filter fst]. cbn [map fst In] in Hnot.
  destruct (String.eqb_spec k "_consumed") as [->|_]; [tauto|].
  cbn [negb]. f_equal. apply IH. tauto.
Qed.

Lemma shown_attributes_plain (names : list string)
    (self : list (string * value)) :
  plain_names names = true -> incl (map fst self) names ->
  filter (fun kv => negb (String.eqb (fst kv) "_consumed")) self = self.
Proof.
  intros Hplain Hself. apply shown_attributes. intros Hin.
  apply Hself in Hin.
  destruct (plain_names_spec names Hplain _ Hin) as [Hres _].
  apply Hres. cbn. tauto.
Qed.

Section StructPlain.
Context {F : Type} (parser_parse : F -> bytes -> result parsed).
Variables (_align : Z) (_union : bool) (names : list string).
Hypothesis Hplain : plain_names names = true.

Lemma self_align_plain (self : list (string * value)) :
  incl (map fst self) names -> self_align _align self = VInt _align.
Proof.
  intros Hself. unfold self_align. rewrite getitem_not_in; [reflexivity|].
  intros Hin. apply Hself in Hin.
  destruct (plain_names_spec names Hplain _ Hin) as [Hres _].
  apply Hres. cbn. tauto.
Qed.

Lemma self_union_plain (self : list (string * value)) :
  incl (map fst self) names -> self_union _union self = _union.
Proof.
  intros Hself. unfold self_union. rewrite getitem_not_in; [reflexivity|].
  intros Hin. apply Hself in Hin.
  destruct (plain_names_spec names Hplain _ Hin) as [Hres _].
  apply Hres. cbn. tauto.
Qed.

Lemma object_setattr_plain (self : list (string * value)) (name : string)
    (val : value) :
  In name names -> object_setattr self name val = Ok (setattr self name val).
Proof.
  intros Hname. destruct (plain_names_spec names Hplain _ Hname) as [Hres _].
  unfold object_setattr.
  destruct (String.eqb_spec name "__class__") as [->|_];
    [exfalso; apply Hres; cbn; tauto|].
  destruct (String.eqb_spec name "__dict__") as [->|_];
    [exfalso; apply Hres; cbn; tauto|].
  destruct (String.eqb_spec name "__weakref__") as [->|_];
    [exfalso; apply Hres; cbn; tauto|].
  reflexivity.
Qed.

Lemma call_hook_plain (self : list (string * value)) (name : string) :
  In name names -> incl (map fst self) names -> call_hook self name = Ok tt.
Proof.
  intros Hname Hself. unfold call_hook.
  rewrite getitem_not_in; [reflexivity|].
  intros Hin. apply Hself in Hin.
  destruct (plain_names_spec names Hplain _ Hname) as [_ Hhook].
  exact (Hhook Hin).
Qed.

(** One turn of the loop. *)
Lemma Struct_for_cons_plain (name : string) (parser : F)
    (spec : list (string * F)) (input : bytes) (n : Z)
    (self : list (string * value)) :
  In name names -> incl (map fst self) names ->
  Struct_for parser_parse _align _union ((name, parser) :: spec) input n self
  = ('(val, c) <- parser_parse parser input ;;
     if _union then
       Struct_for parser_parse _align _union spec input
                  (Z.max n (aligned _align c)) (setattr self name val)
     else
       Struct_for parser_parse _align _union spec
                  (slice_from (aligned _align c) input)
                  (n + aligned _align c) (setattr self name val)).
Proof.
  intros Hname Hself. cbn [Struct_for].
  destruct (parser_parse parser input) as [[val c]| |]; cbn [bind];
    try reflexivity.
  rewrite (self_align_plain self Hself).
  cbn [align_step bind]. rewrite (self_union_plain self Hself).
  rewrite (object_setattr_plain self name val Hname). cbn [bind].
  rewrite call_hook_plain;
    [|exact Hname|now apply setattr_keys].
  cbn [bind]. now destruct _union.
Qed.
End StructPlain.

Lemma len_slice_to {A} (k : Z) (l : list A) : len (slice_to k l) <= len l.
Proof.
  unfold slice_to, len.
  destruct (0 <=? k); rewrite length_firstn; lia.
Qed.

(** Dropping a count that the buffer holds leaves at most the rest of it,
    also when the count is negative and the slice starts from the end. *)
Lemma len_slice_from {A} (k : Z) (l : list A) :
  k <= len l -> k + len (slice_from k l) <= len l.
Proof.
  unfold slice_from, len. intros Hk.
  destruct (Z.leb_spec 0 k); rewrite length_skipn; lia.
Qed.

Lemma bytes_eqb_len (x y : bytes) : bytes_eqb x y = true -> len x = len y.
Proof.
  revert y. induction x as [|a x IH]; intros [|c y]; simpl;
    try discriminate; [reflexivity|].
  intros H. apply andb_true_iff in H as [_ H].
  rewrite !len_cons. now rewrite (IH y H).
Qed.

Lemma unpack_Ok_len fmt data size u :
  calcsize fmt = Ok size -> unpack fmt data = Ok u -> len data = size.
Proof.
  intros Hsize. unfold unpack. rewrite Hsize. cbn [bind].
  destruct (Z.eqb_spec (len data) size); [auto | cbn [negb]; discriminate].
Qed.

Lemma Type_parse_within (format : result (option string)) input v c :
  Type_parse format input = Ok (v, c) -> c <= len input.
Proof.
  unfold Type_parse.
  destruct format as [[[|a fmt]|]| |]; cbn [bind]; try discriminate.
  destruct (calcsize (String a fmt)) as [size| |] eqn:Hsize; cbn [bind];
    try discriminate.
  destruct (unpack (String a fmt) (slice_to size input)) as [u| |] eqn:Hun;
    cbn [bind]; try discriminate.
  intros [= _ <-].
  rewrite <- (unpack_Ok_len _ _ _ _ Hsize Hun) at 1. apply len_slice_to.
Qed.

Lemma Sig_parse_within sequence input v c :
  Sig_parse sequence input = Ok (v, c) -> c <= len input.
Proof.
  unfold Sig_parse.
  destruct (bytes_eqb _ _) eqn:Heq; try discriminate.
  intros [= _ <-]. apply bytes_eqb_len in Heq. rewrite <- Heq.
  apply len_slice_to.
Qed.

Lemma Pad_parse_within amount input v c :
  Pad_parse amount input = Ok (v, c) -> c <= len input.
Proof.
  unfold Pad_parse. destruct (Z.ltb_spec (len input) amount);
    try discriminate.
  now intros [= _ <-].
Qed.

Lemma Data_parse_within amount input v c :
  Data_parse amount input = Ok (v, c) -> c <= len input.
Proof.
  unfold Data_parse. destruct (Z.ltb_spec (len input) amount);
    try discriminate.
  now intros [= _ <-].
Qed.

Lemma Struct_for_within {F} (parser_parse : F -> bytes -> result parsed)
    (_union : bool) (L : Z) (names : list string)
    (spec : list (string * F)) :
  plain_names names = true ->
  incl (map fst spec) names ->
  Forall (fun f => within_buffer (parser_parse (snd f))) spec ->
  forall input n self self' n',
    incl (map fst self) names ->
    (if _union then n <= L /\ len input <= L else n + len input <= L) ->
    Struct_for parser_parse 0 _union spec input n self = Ok (self', n') ->
    n' <= L.
Proof.
  intros Hplain.
  induction spec as [|[name parser] spec IH];
    intros Hnames Hspec input n self self' n' Hself Hinv.
  - cbn [Struct_for]. intros [= _ <-]. pose proof (len_nonneg input).
    destruct _union; lia.
  - assert (Hname : In name names) by (apply Hnames; now left).
    assert (Hnames' : incl (map fst spec) names)
      by (intros x Hx; apply Hnames; now right).
    rewrite (Struct_for_cons_plain _ _ _ names Hplain) by assumption.
    inversion Hspec as [|f spec0 Hp Hrest]; subst. cbn [snd] in Hp.
    specialize (IH Hnames' Hrest).
    destruct (parser_parse parser input) as [[val c]| |] eqn:Hparse;
      cbn [bind]; try discriminate.
    apply Hp in Hparse.
    change (aligned 0 c) with c.
    pose proof (setattr_keys self name val names Hname Hself) as Hself'.
    destruct _union.
    + apply IH; [exact Hself'|lia].
    + apply IH; [exact Hself'|].
      pose proof (len_slice_from c input Hparse). lia.
Qed.

Lemma Any_for_inv {D} (child_parse : D -> bytes -> result parsed)
    (name_of : D -> string) (children : list D) (input : bytes)
    (todo : list D) :
  forall exceptions r,
    Any_for child_parse name_of children input todo exceptions = Ok r ->
    exists child, In child todo /\ child_parse child input = Ok r.
Proof.
  induction todo as [|child todo IH]; intros exceptions r; cbn [Any_for].
  - discriminate.
  - destruct (child_parse child input) as [[val c]| |] eqn:Hparse.
    + intros [= <-]. exists child. split; [now left | exact Hparse].
    + intros H. destruct (IH _ _ H) as (c' & Hin & Hc').
      exists c'. split; [now right | exact Hc'].
    + discriminate.
Qed.

Lemma Seq_while_within (child_parse : bytes -> result parsed) (limit L : Z) :
  within_buffer child_parse ->
  forall fuel input n res res' n',
    n + len input <= L ->
    Seq_while child_parse limit fuel input n res = Ok (res', n') ->
    n' <= L.
Proof.
  intros Hchild. induction fuel as [|fuel IH]; intros input n res res' n' Hinv;
    cbn [Seq_while]; destruct (Seq_cond limit input n);
    try discriminate;
    try (intros [= _ <-]; pose proof (len_nonneg input); lia).
  destruct (child_parse input) as [[v c]| |] eqn:Hparse; try discriminate.
  - apply IH. apply Hchild in Hparse.
    pose proof (len_slice_from c input Hparse). lia.
  - intros [= _ <-]. pose proof (len_nonneg input). lia.
Qed.

(** C3, as the code has it.  When parse succeeds on a descriptor built
    without a fixed-length string, without a record that has an alignment
    stride and without an array, and whose records have plain field names
    (no field named after an attribute that parsing reads, such as
    [_align] or [_union], and none that is the [on_<field>] of a field),
    the consumed count it records is at most the length of the buffer it
    was given. *)
Theorem consumed_within_buffer (d : desc) :
  checks_buffer d = true ->
  plain_fields d = true ->
  forall fuel input v c,
    parse d fuel input = Ok (v, c) -> c <= len input.
Proof.
  induction d using desc_induction; intros Hd Hpl fuel input v c;
    cbn [parse].
  - apply Type_parse_within.
  - apply Type_parse_within.
  - apply Type_parse_within.
  - apply Sig_parse_within.
  - simpl in Hd. apply negb_true_iff in Hd.
    unfold Str_parse. rewrite Hd. discriminate.
  - apply Pad_parse_within.
  - apply Data_parse_within.
  - cbn [checks_buffer] in Hd. apply andb_true_iff in Hd as [Halign Hfields].
    cbn [plain_fields] in Hpl. apply andb_true_iff in Hpl as [Hnames Hplf].
    apply negb_true_iff in Halign. unfold truthy in Halign.
    apply negb_false_iff, Z.eqb_eq in Halign. subst _align.
    fold (field_parse fuel). unfold Struct_parse.
    destruct (Struct_for _ _ _ _ _ _ _) as [[self n]| |] eqn:Hloop;
      cbn [bind]; try discriminate.
    intros [= _ <-].
    eapply (Struct_for_within (field_parse fuel) _union (len input)
              (map fst _spec) _spec Hnames);
      [apply incl_refl| | |
       |exact Hloop].
    + rewrite forallb_forall in Hfields, Hplf. rewrite Forall_forall in *.
      intros [name [p|]] Hin input' v' c'; simpl.
      * apply (H _ Hin); [exact (Hfields _ Hin)|exact (Hplf _ Hin)].
      * discriminate.
    + intros x [].
    + pose proof (len_nonneg input). destruct _union; lia.
  - cbn [checks_buffer] in Hd. rewrite forallb_forall in Hd.
    cbn [plain_fields] in Hpl. rewrite forallb_forall in Hpl.
    rewrite Forall_forall in H.
    unfold Any_parse. intros Hany.
    apply Any_for_inv in Hany as (child & Hin & Hchild).
    exact (H child Hin (Hd child Hin) (Hpl child Hin) fuel input v c Hchild).
  - discriminate.
  - cbn [checks_buffer] in Hd. cbn [plain_fields] in Hpl. unfold Seq_parse.
    destruct (Seq_while _ _ _ _ _ _) as [[res n]| |] eqn:Hloop;
      cbn [bind]; try discriminate.
    intros [= _ <-].
    eapply (Seq_while_within _ limit (len input)); [| |exact Hloop].
    + intros input' v' c'. apply IHd; assumption.
    + lia.
Qed.

(* ------------------------------------------------------------------ *)
(** ** Union mode *)
(* ------------------------------------------------------------------ *)







(* ------------------------------------------------------------------ *)
(** ** Choice *)
(* ------------------------------------------------------------------ *)

Section AnyLoop.
Context {D : Type} (child_parse : D -> bytes -> result parsed)
        (name_of : D -> string).
Variables (children : list D) (input : bytes).

Lemma Any_for_first_success (pre : list D) :
  forall es c post exceptions r,
    Forall2 (fun d e => child_parse d input = Raise e) pre es ->
    child_parse c input = Ok r ->
    Any_for child_parse name_of children input (pre ++ c :: post) exceptions
    = Ok r.
Proof.
  induction pre as [|d pre IH]; intros es c post exceptions [v n] Hpre Hc;
    cbn [app Any_for].
  - now rewrite Hc.
  - inversion Hpre as [|d' e pre' es' Hd Hrest]; subst.
    rewrite Hd. eapply IH; eauto.
Qed.

Lemma Any_for_all_fail (todo : list D) :
  forall es exceptions,
    Forall2 (fun d e => child_parse d input = Raise e) todo es ->
    Any_for child_parse name_of children input todo exceptions
    = Raise (Any_error (combine (map name_of children) (exceptions ++ es))).
Proof.
  induction todo as [|d todo IH]; intros es exceptions Hall;
    inversion Hall as [|d' e todo' es' Hd Hrest]; subst; cbn [Any_for].
  - now rewrite app_nil_r.
  - rewrite Hd, (IH es' (exceptions ++ [e]) Hrest).
    now rewrite <- app_assoc.
Qed.
End AnyLoop.

Lemma combine_map_l {A B C} (f : A -> B) (l : list A) (l' : list C) :
  combine (map f l) l' = map (fun p => (f (fst p), snd p)) (combine l l').
Proof.
  revert l'. induction l as [|x l IH]; intros [|y l']; simpl; try reflexivity.
  now rewrite IH.
Qed.

(** C8.  A choice tries its candidates in declared order on the buffer it
    is given.  The first candidate that parses gives the value and the
    consumed count, whatever the candidates after it are; when every
    candidate raises, the choice raises a [ValueError] whose message lists,
    in order, each candidate's class name with the class name and message
    of its exception. *)
Theorem Any_first_success_or_all_failures (children : list desc)
    (fuel : nat) (input : bytes) :
  (forall pre c post es v n,
      children = pre ++ c :: post ->
      Forall2 (fun d e => parse d fuel input = Raise e) pre es ->
      parse c fuel input = Ok (v, n) ->
      parse (Any children) fuel input = Ok (v, n))
  /\ (forall es,
      Forall2 (fun d e => parse d fuel input = Raise e) children es ->
      parse (Any children) fuel input
      = Raise (ValueError
                 ("Expected any of the following, nothing matched:" +++ nl
                  +++ join nl
                        (map (fun ce =>
                                "- " +++ type_name (fst ce) +++ ": "
                                +++ exn_type (snd ce) +++ ": "
                                +++ indent_message (exn_msg (snd ce)))
                             (combine children es))))).
Proof.
  split.
  - intros pre c post es v n -> Hpre Hc. cbn [Any parse]. unfold Any_parse.
    eapply (Any_for_first_success (fun child => parse child fuel)); eauto.
  - intros es Hall. cbn [Any parse]. unfold Any_parse.
    rewrite (Any_for_all_fail (fun child => parse child fuel) type_name
               children input children es [] Hall).
    cbn [app]. unfold Any_error. rewrite combine_map_l, map_map.
    reflexivity.
Qed.

(* ------------------------------------------------------------------ *)
(** ** Greedy sequences *)
(* ------------------------------------------------------------------ *)

(** The loop test: the buffer is not empty, and no limit is set or fewer
    bytes than the limit are counted. *)
Lemma Seq_cond_true (limit : Z) (input : bytes) (n : Z) :
  Seq_cond limit input n = true <-> input <> [] /\ (limit = 0 \/ n < limit).
Proof.
  unfold Seq_cond, truthy. rewrite andb_true_iff, orb_true_iff.
  rewrite !negb_true_iff, negb_false_iff, Z.eqb_eq, Z.ltb_lt.
  destruct input; cbn [is_empty]; intuition congruence.
Qed.

Lemma Seq_cond_false (limit : Z) (input : bytes) (n : Z) :
  Seq_cond limit input n = false <-> input = [] \/ (limit <> 0 /\ limit <= n).
Proof.
  split.
  - intros Hc. destruct input as [|x input]; [now left|]. right.
    destruct (Z.eq_dec limit 0) as [H0|H0].
    + assert (Seq_cond limit (x :: input) n = true)
        by (apply Seq_cond_true; split; [discriminate|now left]).
      congruence.
    + split; [exact H0|]. destruct (Z.lt_ge_cases n limit) as [Hlt|Hge];
        [|exact Hge].
      assert (Seq_cond limit (x :: input) n = true)
        by (apply Seq_cond_true; split; [discriminate|now right]).
      congruence.
  - intros H. destruct (Seq_cond limit input n) eqn:Hc; [|reflexivity].
    apply Seq_cond_true in Hc as [Hne Hl]. destruct H as [->|[H0 Hge]];
      [contradiction|lia].
Qed.

Section SeqLoop.
Variable child_parse : bytes -> result parsed.
Variable limit : Z.




End SeqLoop.




(* ------------------------------------------------------------------ *)
(** ** Fuel *)
(* ------------------------------------------------------------------ *)

Lemma Struct_for_extends {F} (p1 p2 : F -> bytes -> result parsed)
    (_align : Z) (_union : bool) (spec : list (string * F)) :
  Forall (fun f => extends (p1 (snd f)) (p2 (snd f))) spec ->
  forall input n self r,
    Struct_for p1 _align _union spec input n self = r ->
    r <> OutOfFuel ->
    Struct_for p2 _align _union spec input n self = r.
Proof.
  induction spec as [|[name parser] spec IH]; intros Hspec input n self r;
    cbn [Struct_for]; [auto|].
  inversion Hspec as [|f spec0 Hp Hrest]; subst. cbn [snd] in Hp.
  destruct (p1 parser input) as [[val c]| |] eqn:Hparse; cbn [bind];
    intros Hr Hsettled.
  - rewrite (Hp _ _ Hparse) by discriminate. cbn [bind].
    destruct (align_step (self_align _align self) c) as [nbytes| |];
      cbn [bind] in *; [|exact Hr..].
    destruct (self_union _union self);
      (destruct (object_setattr self name val) as [self1| |];
       cbn [bind] in *; [|exact Hr..]);
      (destruct (call_hook self1 name) as [[]| |];
       cbn [bind] in *; [|exact Hr..]);
      apply IH; auto.
  - rewrite (Hp _ _ Hparse) by discriminate. exact Hr.
  - congruence.
Qed.

Lemma Any_for_extends {D} (p1 p2 : D -> bytes -> result parsed)
    (name_of : D -> string) (children : list D) (input : bytes)
    (todo : list D) :
  Forall (fun d => extends (p1 d) (p2 d)) todo ->
  forall exceptions r,
    Any_for p1 name_of children input todo exceptions = r ->
    r <> OutOfFuel ->
    Any_for p2 name_of children input todo exceptions = r.
Proof.
  induction todo as [|d todo IH]; intros Htodo exceptions r; cbn [Any_for];
    [auto|].
  inversion Htodo as [|d0 todo0 Hp Hrest]; subst.
  destruct (p1 d input) as [[val c]| |] eqn:Hparse; intros Hr Hsettled.
  - now rewrite (Hp _ _ Hparse) by discriminate.
  - rewrite (Hp _ _ Hparse) by discriminate. now apply IH.
  - congruence.
Qed.

Lemma Arr_for_extends (p1 p2 : bytes -> result parsed) (length : Z)
    (finite : bool) (extra : list Z) :
  extends p1 p2 ->
  (finite = true -> extra = []) ->
  forall elems input n res r,
    Arr_for p1 length elems finite input n res = r ->
    r <> OutOfFuel ->
    Arr_for p2 length (elems ++ extra) finite input n res = r.
Proof.
  intros Hp Hextra.
  induction elems as [|i elems IH]; intros input n res r;
    cbn [app Arr_for]; intros Hr Hsettled.
  - destruct finite; [|congruence]. now rewrite Hextra.
  - destruct (is_empty input); [exact Hr|].
    destruct (p1 input) as [[v c]| |] eqn:Hparse; cbn [bind] in Hr.
    + rewrite (Hp _ _ Hparse) by discriminate. cbn [bind]. now apply IH.
    + rewrite (Hp _ _ Hparse) by discriminate. exact Hr.
    + congruence.
Qed.

Lemma Seq_while_extends (p1 p2 : bytes -> result parsed) (limit : Z) :
  extends p1 p2 ->
  forall fuel fuel' input n res r,
    (fuel <= fuel')%nat ->
    Seq_while p1 limit fuel input n res = r ->
    r <> OutOfFuel ->
    Seq_while p2 limit fuel' input n res = r.
Proof.
  intros Hp.
  induction fuel as [|fuel IH]; intros fuel' input n res r Hle;
    cbn [Seq_while]; intros Hr Hsettled.
  - destruct fuel'; cbn [Seq_while];
      destruct (Seq_cond limit input n); congruence.
  - destruct fuel' as [|fuel']; [lia|]. cbn [Seq_while].
    destruct (Seq_cond limit input n); [|exact Hr].
    destruct (p1 input) as [[v c]| |] eqn:Hparse.
    + rewrite (Hp _ _ Hparse) by discriminate. apply IH; [lia|auto..].
    + rewrite (Hp _ _ Hparse) by discriminate. exact Hr.
    + congruence.
Qed.

(** A result reached with some fuel is the result with any larger fuel. *)
Lemma parse_fuel_mono (d : desc) :
  forall fuel fuel' input r,
    (fuel <= fuel')%nat ->
    parse d fuel input = r -> r <> OutOfFuel -> parse d fuel' input = r.
Proof.
  induction d using desc_induction; intros fuel fuel' input r Hle;
    cbn [parse]; auto.
  - (* records *)
    unfold Struct_parse. intros Hr Hsettled.
    destruct (Struct_for _ _ _ _ _ _ _) as [[self n]| |] eqn:Hloop;
      cbn [bind] in Hr; try unsettled.
    + erewrite Struct_for_extends; [| |exact Hloop|discriminate];
        [exact Hr|].
      rewrite Forall_forall in *. intros [name [p|]] Hin input' r'; cbn [snd].
      * apply (H _ Hin). exact Hle.
      * auto.
    + erewrite Struct_for_extends; [| |exact Hloop|discriminate];
        [exact Hr|].
      rewrite Forall_forall in *. intros [name [p|]] Hin input' r'; cbn [snd].
      * apply (H _ Hin). exact Hle.
      * auto.
  - (* choices *)
    unfold Any_parse. apply Any_for_extends.
    rewrite Forall_forall in *. intros c Hin input' r'.
    now apply (H c Hin).
  - (* arrays *)
    unfold Arr_parse. intros Hr Hsettled.
    assert (Hchild : extends (parse d fuel) (parse d fuel'))
      by (intros input' r'; now apply IHd).
    destruct (truthy length).
    + destruct (Arr_for (parse d fuel) _ _ _ _ _ _) as [[res n]| |] eqn:Hloop;
        cbn [bind] in Hr; try unsettled;
        pose proof (Arr_for_extends _ _ length true [] Hchild
                      (fun _ => eq_refl) _ _ _ _ _ Hloop) as Hloop';
        rewrite app_nil_r in Hloop'; rewrite Hloop' by discriminate;
        exact Hr.
    + assert (Hrep : repeat 0 fuel'
                     = repeat 0 fuel ++ repeat 0 (fuel' - fuel)%nat)
        by (rewrite <- repeat_app; f_equal; lia).
      rewrite Hrep.
      destruct (Arr_for (parse d fuel) _ _ _ _ _ _) as [[res n]| |] eqn:Hloop;
        cbn [bind] in Hr; try unsettled;
        rewrite (Arr_for_extends _ _ length false
                   (repeat 0 (fuel' - fuel)) Hchild
                   ltac:(discriminate) _ _ _ _ _ Hloop) by discriminate;
        exact Hr.
  - (* sequences *)
    unfold Seq_parse. intros Hr Hsettled.
    assert (Hchild : extends (parse d fuel) (parse d fuel'))
      by (intros input' r'; now apply IHd).
    destruct (Seq_while (parse d fuel) _ _ _ _ _) as [[res n]| |] eqn:Hloop;
      cbn [bind] in Hr; try unsettled;
      rewrite (Seq_while_extends _ _ limit Hchild _ _ _ _ _ _ Hle Hloop)
        by discriminate;
      exact Hr.
Qed.
(* ------------------------------------------------------------------ *)
(** ** Integer descriptors: sizes, ranges and byte orders *)
(* ------------------------------------------------------------------ *)

Lemma len_slice_to_min {A} (k : Z) (l : list A) :
  0 <= k -> len (slice_to k l) = Z.min k (len l).
Proof.
  intros Hk. unfold slice_to, len.
  apply Z.leb_le in Hk. rewrite Hk. rewrite length_firstn. lia.
Qed.

Lemma code_size_positive (code : ascii) (size : Z) :
  code_size code = Some size -> In size [1; 2; 4; 8].
Proof.
  destruct code as [[] [] [] [] [] [] [] []]; simpl; intros [= <-]; auto.
Qed.

(** What [Type.parse] does on the format of a well-configured integer. *)
Lemma Int_parse_unfold (n : Z) (signed : bool) (endian : string)
    (e kind : ascii) (size : Z) (fuel : nat) (input : bytes) :
  getitem String.eqb ENDIAN_MAP endian = Some e ->
  getitem Z.eqb SIZE_MAP n = Some kind ->
  code_size kind = Some size ->
  exists code,
    code_size code = Some size /\ code_signed code = signed
    /\ parse (Int n signed endian) fuel input
       = (v <- unpack (String e (String code EmptyString))
                      (slice_to size input) ;;
          Ok (VInt v, size)).
Proof.
  intros He Hkind Hsize.
  pose proof (ENDIAN_MAP_values _ _ He) as Hin.
  destruct (SIZE_MAP_values _ _ Hkind) as (_ & _ & Hs & Hu & Hup).
  exists (if negb signed then upper kind else kind).
  set (code := if negb signed then upper kind else kind).
  assert (Hcode : code_size code = Some size /\ code_signed code = signed).
  { subst code. destruct signed; simpl; [auto|]. rewrite Hup. auto. }
  destruct Hcode as [Hcsize Hcsigned]. repeat split; auto.
  cbn [Int parse]. unfold Type_parse, Int_format. rewrite He, Hkind.
  fold code. cbn [bind]. cbv beta iota.
  assert (Hcalc : calcsize (String e (String code EmptyString)) = Ok size).
  { simpl in Hin.
    destruct Hin as [<-|[<-|[<-|[]]]]; simpl; now rewrite Hcsize. }
  rewrite Hcalc. reflexivity.
Qed.

(** X1.  A well-configured integer descriptor reads the first bytes of the
    buffer only, as many as its format is wide: a shorter buffer makes
    [struct.unpack] raise, and on any other buffer the value is what the
    reference codec decodes from that prefix, whatever follows it. *)
Theorem Int_parse_reads_prefix (n : Z) (signed : bool) (endian : string)
    (e kind : ascii) (size : Z) (fuel : nat) (input : bytes) :
  getitem String.eqb ENDIAN_MAP endian = Some e ->
  getitem Z.eqb SIZE_MAP n = Some kind ->
  code_size kind = Some size ->
  (len input < size ->
   parse (Int n signed endian) fuel input
   = Raise (struct_error ("unpack requires a buffer of " +++ str_of_Z size
                          +++ " bytes")))
  /\ (size <= len input ->
      parse (Int n signed endian) fuel input
      = Ok (VInt (int_from_bytes (slice_to size input) (format_order e)
                                 signed), size)).
Proof.
  intros He Hkind Hsize.
  destruct (Int_parse_unfold n signed endian e kind size fuel input
              He Hkind Hsize) as (code & Hcsize & Hcsigned & ->).
  pose proof (code_size_positive _ _ Hcsize) as Hpos.
  assert (H0 : 0 <= size) by (simpl in Hpos; lia).
  pose proof (len_slice_to_min size input H0) as Hlen.
  pose proof (ENDIAN_MAP_values _ _ He) as Hin.
  split; intros Hcmp.
  - unfold unpack.
    assert (Hcalc : calcsize (String e (String code EmptyString)) = Ok size).
    { simpl in Hin.
      destruct Hin as [<-|[<-|[<-|[]]]]; simpl; now rewrite Hcsize. }
    rewrite Hcalc. cbn [bind].
    replace (len (slice_to size input) =? size) with false
      by (symmetry; apply Z.eqb_neq; lia).
    reflexivity.
  - rewrite (unpack_from_bytes e code size) by (auto; lia).
    cbn [bind]. now rewrite Hcsigned.
Qed.

Lemma be_to_Z_range (bs : bytes) : 0 <= be_to_Z bs < 2 ^ (8 * len bs).
Proof.
  rewrite <- (rev_involutive bs) at 1 2. rewrite be_to_Z_rev.
  rewrite <- (len_rev bs). apply le_to_Z_range.
Qed.

(** The reference codec stays within the range of the width. *)
Lemma int_from_bytes_range (bs : bytes) (o : endianness) (signed : bool) :
  0 < len bs ->
  let v := int_from_bytes bs o signed in
  if signed then - 2 ^ (8 * len bs - 1) <= v < 2 ^ (8 * len bs - 1)
  else 0 <= v < 2 ^ (8 * len bs).
Proof.
  intros Hlen v. subst v. unfold int_from_bytes.
  set (u := be_to_Z _).
  assert (Hu : 0 <= u < 2 ^ (8 * len bs)).
  { subst u. destruct o.
    - rewrite <- (len_rev bs). apply be_to_Z_range.
    - apply be_to_Z_range. }
  assert (Hpow : 2 ^ (8 * len bs) = 2 * 2 ^ (8 * len bs - 1)).
  { replace (8 * len bs) with (1 + (8 * len bs - 1)) at 1 by lia.
    rewrite Z.pow_add_r by lia. reflexivity. }
  destruct signed; cbn [andb]; [|exact Hu].
  rewrite testbit_top by
    (try lia; replace (8 * len bs - 1 + 1) with (8 * len bs) by lia;
     exact Hu).
  destruct (Z.leb_spec (2 ^ (8 * len bs - 1)) u); lia.
Qed.

Lemma Int_parse_Ok_inv (n : Z) (signed : bool) (endian : string)
    (fuel : nat) (input : bytes) (val : value) (c : Z) :
  parse (Int n signed endian) fuel input = Ok (val, c) ->
  exists e kind,
    getitem String.eqb ENDIAN_MAP endian = Some e
    /\ getitem Z.eqb SIZE_MAP n = Some kind
    /\ code_size kind = Some c
    /\ c <= len input
    /\ val = VInt (int_from_bytes (slice_to c input) (format_order e) signed).
Proof.
  intros Hparse.
  destruct (getitem String.eqb ENDIAN_MAP endian) as [e|] eqn:He.
  2:{ cbn [Int parse] in Hparse. unfold Type_parse, Int_format in Hparse.
      rewrite He in Hparse. discriminate. }
  destruct (getitem Z.eqb SIZE_MAP n) as [kind|] eqn:Hkind.
  2:{ cbn [Int parse] in Hparse. unfold Type_parse, Int_format in Hparse.
      rewrite He, Hkind in Hparse. discriminate. }
  destruct (SIZE_MAP_values _ _ Hkind) as (_ & Hsome & _).
  destruct (code_size kind) as [size|] eqn:Hsize; [|contradiction].
  destruct (Int_parse_reads_prefix n signed endian e kind size fuel input
              He Hkind Hsize) as [Hshort Hlong].
  destruct (Z.lt_ge_cases (len input) size) as [Hlt|Hge].
  - rewrite (Hshort Hlt) in Hparse. discriminate.
  - rewrite (Hlong Hge) in Hparse. injection Hparse as <- <-.
    exists e, kind. repeat split; auto.
Qed.

(** X2.  An integer that parses is within the range of the bytes consumed:
    two's complement for a signed descriptor, and from zero up for an
    unsigned one; the consumed count is 1, 2, 4 or 8. *)
Theorem Int_parse_value_range (n : Z) (signed : bool) (endian : string)
    (fuel : nat) (input : bytes) (val : value) (c : Z) :
  parse (Int n signed endian) fuel input = Ok (val, c) ->
  In c [1; 2; 4; 8]
  /\ exists v, val = VInt v
     /\ if signed then - 2 ^ (8 * c - 1) <= v < 2 ^ (8 * c - 1)
        else 0 <= v < 2 ^ (8 * c).
Proof.
  intros Hparse.
  destruct (Int_parse_Ok_inv _ _ _ _ _ _ _ Hparse)
    as (e & kind & He & Hkind & Hsize & Hlen & ->).
  pose proof (code_size_positive _ _ Hsize) as Hc.
  split; [exact Hc|]. eexists. split; [reflexivity|].
  assert (Hl : len (slice_to c input) = c)
    by (rewrite len_slice_to_min; simpl in Hc; lia).
  pose proof (int_from_bytes_range (slice_to c input) (format_order e) signed)
    as Hrange.
  rewrite Hl in Hrange. apply Hrange. simpl in Hc. lia.
Qed.

(** X3.  A byte order or a width that the maps do not hold makes the
    descriptor raise a [KeyError] on every buffer, the byte order being
    looked up first. *)
Theorem Int_parse_unknown_key (n : Z) (signed : bool) (endian : string)
    (fuel : nat) (input : bytes) :
  (~ In endian ["little"; "big"; "native"] ->
   parse (Int n signed endian) fuel input
   = Raise (KeyError (repr_str endian)))
  /\ (In endian ["little"; "big"; "native"] ->
      ~ In n [8; 16; 32; 64; 128] ->
      parse (Int n signed endian) fuel input = Raise (KeyError (str_of_Z n))).
Proof.
  split.
  - intros Hnot. cbn [Int parse]. unfold Type_parse, Int_format.
    replace (getitem String.eqb ENDIAN_MAP endian) with (@None ascii);
      [reflexivity|].
    unfold ENDIAN_MAP. cbn [getitem].
    repeat (match goal with
            | |- context [String.eqb ?k endian] =>
                destruct (String.eqb_spec k endian) as [<-|_];
                [exfalso; apply Hnot; simpl; auto|]
            end).
    reflexivity.
  - intros Hin Hnot. cbn [Int parse]. unfold Type_parse, Int_format.
    assert (He : exists e, getitem String.eqb ENDIAN_MAP endian = Some e).
    { simpl in Hin. destruct Hin as [<-|[<-|[<-|[]]]]; eexists; reflexivity. }
    destruct He as [e ->].
    replace (getitem Z.eqb SIZE_MAP n) with (@None ascii); [reflexivity|].
    unfold SIZE_MAP. cbn [getitem].
    repeat (match goal with
            | |- context [Z.eqb ?k n] =>
                destruct (Z.eqb_spec k n) as [<-|_];
                [exfalso; apply Hnot; simpl; auto 10|]
            end).
    reflexivity.
Qed.

(** X4.  Byte order: what a big-endian descriptor reads from a buffer of its
    size, the little-endian descriptor of the same width and signedness
    reads from the reversed buffer. *)
Theorem Int_parse_big_is_little_reversed (n : Z) (signed : bool)
    (fuel : nat) (input : bytes) (val : value) (c : Z) :
  len input = c ->
  parse (Int n signed "big") fuel input = Ok (val, c) ->
  parse (Int n signed "little") fuel (rev input) = Ok (val, c).
Proof.
  intros Hlen Hparse.
  destruct (Int_parse_Ok_inv _ _ _ _ _ _ _ Hparse)
    as (e & kind & He & Hkind & Hsize & _ & ->).
  injection He as <-.
  rewrite (Int_parse_format_width n signed "little" "<"%char kind c fuel
             (rev input) eq_refl Hkind Hsize)
    by (now rewrite len_rev).
  rewrite <- Hlen, slice_to_all.
  unfold int_from_bytes. cbn [format_order].
  now rewrite rev_involutive, len_rev.
Qed.

Lemma int_from_bytes_unsigned (bs : bytes) (o : endianness) :
  0 < len bs ->
  int_from_bytes bs o false = int_from_bytes bs o true mod 2 ^ (8 * len bs).
Proof.
  intros Hlen.
  pose proof (int_from_bytes_range bs o false Hlen) as Hu. cbv zeta in Hu.
  unfold int_from_bytes in *. cbn [andb] in *.
  set (u := be_to_Z _) in *.
  destruct (Z.testbit u (8 * len bs - 1)).
  - apply Z.mod_unique with (q := -1); lia.
  - symmetry. apply Z.mod_small. exact Hu.
Qed.

(** X5.  [UInt] reads the same bytes as the signed descriptor of its width
    and byte order: its value is the signed value modulo two to the number
    of bits consumed. *)
Theorem UInt_is_Int_modulo (n : Z) (endian : string) (fuel : nat)
    (input : bytes) (v c : Z) :
  parse (Int n true endian) fuel input = Ok (VInt v, c) ->
  parse (UInt n endian) fuel input = Ok (VInt (v mod 2 ^ (8 * c)), c).
Proof.
  intros Hparse.
  destruct (Int_parse_Ok_inv _ _ _ _ _ _ _ Hparse)
    as (e & kind & He & Hkind & Hsize & Hlen & Hv).
  injection Hv as ->.
  pose proof (code_size_positive _ _ Hsize) as Hc.
  destruct (Int_parse_reads_prefix n false endian e kind c fuel input
              He Hkind Hsize) as [_ Hlong].
  unfold UInt. rewrite (Hlong Hlen).
  assert (Hl : len (slice_to c input) = c)
    by (rewrite len_slice_to_min; simpl in Hc; lia).
  rewrite int_from_bytes_unsigned by (rewrite Hl; simpl in Hc; lia).
  now rewrite Hl.
Qed.

(* ------------------------------------------------------------------ *)
(** ** Signatures and fixed-length strings *)
(* ------------------------------------------------------------------ *)

Lemma bytes_eqb_eq (x y : bytes) : bytes_eqb x y = true <-> x = y.
Proof.
  revert y. induction x as [|a x IH]; intros [|c y]; simpl;
    try (split; [discriminate | intros [=]]); [tauto|].
  rewrite andb_true_iff, IH. unfold byte_eqb.
  split.
  - intros [Hac ->]. apply Byte.byte_dec_bl in Hac. now subst.
  - intros [= -> ->]. split; [apply Byte.byte_dec_lb|]; reflexivity.
Qed.

Lemma slice_to_app {A} (l rest : list A) : slice_to (len l) (l ++ rest) = l.
Proof.
  unfold slice_to. pose proof (len_nonneg l) as H.
  apply Z.leb_le in H. rewrite H. unfold len. rewrite Nat2Z.id.
  rewrite firstn_app, Nat.sub_diag, firstn_all. simpl. apply app_nil_r.
Qed.

Lemma slice_from_app {A} (l rest : list A) :
  slice_from (len l) (l ++ rest) = rest.
Proof.
  unfold slice_from. pose proof (len_nonneg l) as H.
  apply Z.leb_le in H. rewrite H. unfold len. rewrite Nat2Z.id.
  rewrite skipn_app, Nat.sub_diag, skipn_all. reflexivity.
Qed.

Lemma slice_to_from {A} (k : Z) (l : list A) :
  0 <= k -> slice_to k l ++ slice_from k l = l.
Proof.
  intros Hk. unfold slice_to, slice_from. apply Z.leb_le in Hk.
  rewrite Hk. apply firstn_skipn.
Qed.

(** X6.  A signature parses exactly the buffers that start with its
    sequence: it then hands the sequence back and consumes its length, and
    on any other buffer it raises a [ValueError] that quotes the bytes found
    and the bytes expected. *)
Theorem Sig_parse_iff_prefix (sequence : bytes) (fuel : nat) (input : bytes) :
  (forall rest,
      parse (Sig sequence) fuel (sequence ++ rest)
      = Ok (VBytes sequence, len sequence))
  /\ (forall v c,
      parse (Sig sequence) fuel input = Ok (v, c) ->
      v = VBytes sequence /\ c = len sequence
      /\ input = sequence ++ slice_from c input)
  /\ ((forall rest, input <> sequence ++ rest) ->
      parse (Sig sequence) fuel input
      = Raise (ValueError (repr_bytes (slice_to (len sequence) input)
                           +++ " does not match expected "
                           +++ repr_bytes sequence +++ "!"))).
Proof.
  cbn [Sig parse]. unfold Sig_parse. repeat split.
  - intros rest. rewrite slice_to_app.
    now rewrite (proj2 (bytes_eqb_eq sequence sequence) eq_refl).
  - destruct (bytes_eqb _ _); now inversion H.
  - destruct (bytes_eqb _ _); now inversion H.
  - destruct (bytes_eqb _ _) eqn:Heq; [|discriminate].
    injection H as _ <-. apply bytes_eqb_eq in Heq.
    rewrite <- (slice_to_from (len sequence) input) at 1
      by apply len_nonneg.
    now rewrite Heq.
  - intros Hnot.
    destruct (bytes_eqb _ _) eqn:Heq; [|reflexivity].
    apply bytes_eqb_eq in Heq. exfalso.
    apply (Hnot (slice_from (len sequence) input)).
    rewrite <- (slice_to_from (len sequence) input) at 1
      by apply len_nonneg.
    now rewrite Heq.
Qed.

Lemma rstrip_nul_zeros (m : nat) : rstrip_nul (repeat x00 m) = [].
Proof. induction m as [|m IH]; simpl; [reflexivity|]. now rewrite IH. Qed.

Lemma rstrip_nul_app_zeros (s : bytes) (m : nat) :
  last s x01 <> x00 -> rstrip_nul (s ++ repeat x00 m) = s.
Proof.
  induction s as [|x s IH]; intros Hlast.
  - apply rstrip_nul_zeros.
  - cbn [app rstrip_nul]. destruct s as [|y s].
    + cbn [app]. rewrite rstrip_nul_zeros. cbn [last] in Hlast.
      unfold byte_eqb.
      destruct (Byte.eqb x x00) eqn:Hx; [|reflexivity].
      apply Byte.byte_dec_bl in Hx. contradiction.
    + rewrite IH by exact Hlast. reflexivity.
Qed.

Lemma byte_val_to_N (x : byte) : Z.to_N (byte_val x) = Byte.to_N x.
Proof. unfold byte_val. apply N2Z.id. Qed.

Lemma utf8_decode_ascii (inp s : bytes) :
  Forall (fun x => byte_val x < 128) s ->
  forall pos, utf8_decode_from inp pos s = Ok (map Byte.to_N s).
Proof.
  induction 1 as [|x s Hx _ IH]; intros pos; [reflexivity|].
  cbn [utf8_decode_from]. apply Z.ltb_lt in Hx. rewrite Hx.
  unfold emit. rewrite IH. cbn [bind map]. now rewrite byte_val_to_N.
Qed.

Lemma ascii_decode_ascii (inp s : bytes) :
  Forall (fun x => byte_val x < 128) s ->
  forall pos, ascii_decode_from inp pos s = Ok (map Byte.to_N s).
Proof.
  induction 1 as [|x s Hx _ IH]; intros pos; [reflexivity|].
  cbn [ascii_decode_from]. apply Z.ltb_lt in Hx. rewrite Hx.
  unfold emit. rewrite IH. cbn [bind map]. now rewrite byte_val_to_N.
Qed.

Lemma decode_ascii_bytes (s : bytes) (encoding : codec) :
  Forall (fun x => byte_val x < 128) s ->
  decode s encoding = Ok (map Byte.to_N s).
Proof.
  intros Hs. unfold decode.
  destruct encoding;
    [now apply utf8_decode_ascii | now apply ascii_decode_ascii | reflexivity].
Qed.

(** X7.  A string descriptor of maximum length [k] reads a field of [k]
    bytes that holds ASCII text padded with NUL bytes: it returns the text
    without the padding and consumes [k] bytes, whatever follows the field
    and whichever of the codecs is configured. *)
Theorem Str_fixed_reads_padded_text (k : Z) (encoding : codec) (fuel : nat)
    (txt rest : bytes) :
  0 < k ->
  len txt <= k ->
  Forall (fun x => byte_val x < 128) txt ->
  last txt x01 <> x00 ->
  parse (Str k encoding) fuel
        (txt ++ repeat x00 (Z.to_nat (k - len txt)) ++ rest)
  = Ok (VStr (map Byte.to_N txt), k).
Proof.
  intros Hk Hlen Hascii Hlast. cbn [Str parse]. unfold Str_parse.
  replace (truthy k) with true
    by (symmetry; unfold truthy; apply negb_true_iff, Z.eqb_neq; lia).
  cbn [bind].
  assert (Hfield : slice_to k (txt ++ repeat x00 (Z.to_nat (k - len txt))
                                   ++ rest)
                   = txt ++ repeat x00 (Z.to_nat (k - len txt))).
  { rewrite app_assoc.
    replace k with (len (txt ++ repeat x00 (Z.to_nat (k - len txt)))) at 1.
    - apply slice_to_app.
    - unfold len in *. rewrite length_app, repeat_length. lia. }
  rewrite Hfield, rstrip_nul_app_zeros by exact Hlast.
  now rewrite decode_ascii_bytes.
Qed.

(* ------------------------------------------------------------------ *)
(** ** Records in struct mode *)
(* ------------------------------------------------------------------ *)

(** X8.  With a positive stride the alignment step leaves a multiple of the
    stride that is strictly above the count it is given, by at most one
    stride: a field is always followed by at least one byte of padding. *)
Theorem aligned_next_multiple (A c : Z) :
  0 < A ->
  aligned A c mod A = 0 /\ c < aligned A c <= c + A.
Proof.
  intros HA. unfold aligned, truthy.
  replace (A =? 0) with false by (symmetry; apply Z.eqb_neq; lia).
  cbn [negb].
  pose proof (Z.mod_pos_bound c A HA) as Hmod.
  split; [|lia].
  rewrite (Z.div_mod c A) at 1 by lia.
  replace (A * (c / A) + c mod A + (A - c mod A)) with ((c / A + 1) * A)
    by lia.
  apply Z.mod_mul. lia.
Qed.

Lemma Struct_for_run (fuel : nat) (_align : Z) (names : list string)
    (spec : list (string * option desc)) (input : bytes)
    (results : list parsed) (rest : bytes) :
  plain_names names = true ->
  Struct_run fuel _align spec input results rest ->
  forall more n self,
    incl (map fst spec) names ->
    incl (map fst self) names ->
    Struct_for (field_parse fuel) _align false (spec ++ more) input n self
    = Struct_for (field_parse fuel) _align false more rest
        (n + Zsum (map (fun r => aligned _align (snd r)) results))
        (fold_left (fun self nv => setattr self (fst nv) (snd nv))
                   (combine (map fst spec) (map fst results)) self).
Proof.
  intros Hplain.
  induction 1 as [input|name parser spec input val c results rest Hp _ IH];
    intros more n self Hnames Hself.
  - cbn. now rewrite Z.add_0_r.
  - assert (Hname : In name names) by (apply Hnames; now left).
    cbn [app].
    rewrite (Struct_for_cons_plain _ _ _ names Hplain) by assumption.
    rewrite Hp. cbn [bind]. rewrite IH.
    + cbn. now rewrite Z.add_assoc.
    + intros x Hx. apply Hnames. now right.
    + now apply setattr_keys.
Qed.

Lemma setattr_fresh (self : list (string * value)) (name : string)
    (val : value) :
  ~ In name (map fst self) -> setattr self name val = self ++ [(name, val)].
Proof.
  induction self as [|[k v] self IH]; intros Hnot; [reflexivity|].
  cbn [setattr]. cbn [map fst In] in Hnot.
  destruct (String.eqb_spec k name) as [->|_]; [tauto|].
  rewrite IH by tauto. reflexivity.
Qed.

Lemma set_fields_from_distinct (names : list string) :
  forall (vals : list value) (self : list (string * value)),
    NoDup (map fst self ++ names) ->
    fold_left (fun self nv => setattr self (fst nv) (snd nv))
              (combine names vals) self
    = self ++ combine names vals.
Proof.
  induction names as [|name names IH]; intros vals self Hnodup.
  - cbn. now rewrite app_nil_r.
  - destruct vals as [|val vals]; [cbn; now rewrite app_nil_r|].
    cbn [combine fold_left fst snd].
    rewrite setattr_fresh.
    + rewrite IH.
      * now rewrite <- app_assoc.
      * rewrite map_app. cbn [map fst]. now rewrite <- app_assoc.
    + apply NoDup_remove_2 in Hnodup. intros Hin. apply Hnodup.
      apply in_or_app. now left.
Qed.

(** X9.  In struct mode, when the fields parse one after the other, each on
    what the aligned count of the one before leaves, the record parses: its
    consumed count is the sum of the aligned counts of the fields, and its
    attributes are the field names with their values, in declaration order.
    The field names are distinct and plain, and no record object is below an
    [Arr] or a [Seq] of a field. *)
Theorem Struct_consumed_is_sum (cls : string) (_align : Z)
    (_spec : list (string * option desc)) (fuel : nat) (input : bytes)
    (results : list parsed) (rest : bytes) :
  plain_names (map fst _spec) = true ->
  single_use (StructObj cls _align false _spec) = true ->
  Struct_run fuel _align _spec input results rest ->
  NoDup (map fst _spec) ->
  parse (StructObj cls _align false _spec) fuel input
  = Ok (VObj cls (combine (map fst _spec) (map fst results)),
        Zsum (map (fun r => aligned _align (snd r)) results)).
Proof.
  intros Hplain _ Hrun Hnodup. rewrite parse_Struct. unfold Struct_parse.
  rewrite <- (app_nil_r _spec) at 1.
  rewrite (Struct_for_run _ _ (map fst _spec) _ _ _ _ Hplain Hrun);
    [|apply incl_refl|intros x []].
  cbn [Struct_for bind]. rewrite set_fields_from_distinct by exact Hnodup.
  cbn [app]. rewrite (shown_attributes_plain (map fst _spec));
    [reflexivity|exact Hplain|apply combine_keys].
Qed.

Lemma Struct_for_union_error (fuel : nat) (_align : Z) (input : bytes)
    (names : list string)
    (pre post : list (string * option desc)) (name : string)
    (parser : option desc) (results : list parsed) (e : exn) :
  plain_names names = true ->
  Forall2 (fun f r => field_parse fuel (snd f) input = Ok r) pre results ->
  field_parse fuel parser input = Raise e ->
  forall n self,
    incl (map fst pre) names ->
    incl (map fst self) names ->
    Struct_for (field_parse fuel) _align true (pre ++ (name, parser) :: post)
               input n self = Raise e.
Proof.
  intros Hplain Hpre Hfail.
  induction Hpre as [|[nm p] [val c] pre results Hp _ IH];
    intros n self Hnames Hself; cbn [app].
  - cbn [Struct_for]. now rewrite Hfail.
  - assert (Hname : In nm names) by (apply Hnames; now left).
    rewrite (Struct_for_cons_plain _ _ _ names Hplain) by assumption.
    cbn [snd] in Hp. rewrite Hp. cbn [bind]. apply IH.
    + intros x Hx. apply Hnames. now right.
    + now apply setattr_keys.
Qed.

(** X10.  A field that raises ends the parse of its record with that very
    error, in struct mode as in union mode, whatever fields come after it:
    no record comes back.  The names of the fields before it are plain, and
    no record object is below an [Arr] or a [Seq] of these fields or of the
    field that raises. *)
Theorem Struct_field_error_propagates (cls : string) (_align : Z)
    (fuel : nat) (input : bytes) (pre post : list (string * option desc))
    (name : string) (parser : option desc) (results : list parsed)
    (rest : bytes) (e : exn) :
  plain_names (map fst pre) = true ->
  single_use (StructObj cls _align false (pre ++ [(name, parser)])) = true ->
  (Struct_run fuel _align pre input results rest ->
   field_parse fuel parser rest = Raise e ->
   parse (StructObj cls _align false (pre ++ (name, parser) :: post))
         fuel input = Raise e)
  /\ (Forall2 (fun f r => field_parse fuel (snd f) input = Ok r)
              pre results ->
      field_parse fuel parser input = Raise e ->
      parse (StructObj cls _align true (pre ++ (name, parser) :: post))
            fuel input = Raise e).
Proof.
  intros Hplain _. split.
  - intros Hrun Hfail. rewrite parse_Struct. unfold Struct_parse.
    rewrite (Struct_for_run _ _ (map fst pre) _ _ _ _ Hplain Hrun);
      [|apply incl_refl|intros x []].
    cbn [Struct_for]. now rewrite Hfail.
  - intros Hpre Hfail. rewrite parse_Struct. unfold Struct_parse.
    rewrite (Struct_for_union_error _ _ _ (map fst pre) _ _ _ _ _ _
               Hplain Hpre Hfail);
      [reflexivity|apply incl_refl|intros x []].
Qed.

Lemma slice_from_add {A} (a k : Z) (l : list A) :
  0 <= a -> 0 <= k -> slice_from k (slice_from a l) = slice_from (a + k) l.
Proof.
  intros Ha Hk. unfold slice_from.
  replace (0 <=? a) with true by (symmetry; apply Z.leb_le; lia).
  replace (0 <=? k) with true by (symmetry; apply Z.leb_le; lia).
  replace (0 <=? a + k) with true by (symmetry; apply Z.leb_le; lia).
  rewrite skipn_skipn. f_equal. lia.
Qed.

Lemma slice_from_0 {A} (l : list A) : slice_from 0 l = l.
Proof. reflexivity. Qed.

(** Fields that parse at their offsets in the buffer parse one after the
    other on what is left of it. *)
Lemma Struct_at_run (fuel : nat) (_align : Z) (input : bytes) (off : Z)
    (spec : list (string * option desc)) (results : list parsed) :
  Struct_at fuel _align input off spec results ->
  0 <= off ->
  Struct_run fuel _align spec (slice_from off input) results
    (slice_from (off + Zsum (map (fun r => aligned _align (snd r)) results))
                input).
Proof.
  induction 1 as [off|off name parser spec val c results Hp Hc _ IH];
    intros Hoff.
  - cbn [map Zsum fold_right]. rewrite Z.add_0_r. constructor.
  - cbn [map snd Zsum fold_right]. apply Struct_run_cons; [exact Hp|].
    rewrite slice_from_add by assumption.
    rewrite Z.add_assoc. apply IH. lia.
Qed.

(** X11.  In struct mode the fields are read at offsets of the buffer the
    record is given: when the first field parses at offset 0 and every
    other field at the offset that is the sum of the aligned counts of the
    fields before it, these counts being not negative, the record parses
    with those values and consumes the sum of all the aligned counts.  The
    field names are distinct and plain, and no record object is below an
    [Arr] or a [Seq] of a field. *)
Theorem Struct_field_offsets (cls : string) (_align : Z)
    (_spec : list (string * option desc)) (fuel : nat) (input : bytes)
    (results : list parsed) :
  plain_names (map fst _spec) = true ->
  single_use (StructObj cls _align false _spec) = true ->
  Struct_at fuel _align input 0 _spec results ->
  NoDup (map fst _spec) ->
  parse (StructObj cls _align false _spec) fuel input
  = Ok (VObj cls (combine (map fst _spec) (map fst results)),
        Zsum (map (fun r => aligned _align (snd r)) results)).
Proof.
  intros Hplain _ Hat Hnodup.
  apply Struct_at_run in Hat; [|lia]. rewrite slice_from_0 in Hat.
  rewrite parse_Struct. unfold Struct_parse.
  rewrite <- (app_nil_r _spec) at 1.
  rewrite (Struct_for_run _ _ (map fst _spec) _ _ _ _ Hplain Hat);
    [|apply incl_refl|intros x []].
  cbn [Struct_for bind]. rewrite set_fields_from_distinct by exact Hnodup.
  cbn [app]. rewrite (shown_attributes_plain (map fst _spec));
    [reflexivity|exact Hplain|apply combine_keys].
Qed.

(* ------------------------------------------------------------------ *)
(** ** Arrays: what a run of elements leads to *)
(* ------------------------------------------------------------------ *)

Section ArrLoop.
Variable child_parse : bytes -> result parsed.

Lemma Arr_for_run (length : Z) (finite : bool) (input : bytes)
    (steps : list parsed) (rest : bytes) :
  Arr_run child_parse input steps rest ->
  forall elems more n res,
    List.length elems = List.length steps ->
    Arr_for child_parse length (elems ++ more) finite input n res
    = match steps with
      | [] => Arr_for child_parse length more finite rest n res
      | _ => Arr_for child_parse length more finite rest
               (last elems 0 + snd (last steps (VNone, 0)))
               (res ++ map fst steps)
      end.
Proof.
  induction 1 as [input|input v c steps rest Hne Hp _ IH];
    intros elems more n res Hlen.
  - destruct elems; [reflexivity|discriminate].
  - destruct elems as [|i elems]; [discriminate|].
    cbn [app Arr_for]. destruct input as [|x input]; [contradiction|].
    cbn [is_empty]. rewrite Hp. cbn [bind].
    rewrite IH by (simpl in Hlen; lia).
    destruct steps as [|s steps].
    + destruct elems; [|discriminate]. cbn. reflexivity.
    + destruct elems as [|j elems]; [discriminate|].
      cbn [map fst]. rewrite <- app_assoc. reflexivity.
Qed.
End ArrLoop.

Lemma range_app_tail (k : nat) (N : Z) :
  Z.of_nat k <= N ->
  range N = range (Z.of_nat k)
            ++ map Z.of_nat (seq k (Z.to_nat N - k)).
Proof.
  intros Hk. unfold range. rewrite Nat2Z.id, <- map_app. f_equal.
  replace (Z.to_nat N) with (k + (Z.to_nat N - k))%nat at 1 by lia.
  apply seq_app.
Qed.

(** X12.  An array with a count [N], whose child is a descriptor object
    that holds no record object, stops after [N] elements, whatever is left
    of the buffer: it returns the [N] elements and records [N - 1] plus the
    count of the last one.  When the buffer is empty after [k] elements,
    with [k] below [N], it raises a [ValueError] that reports [k - 1]
    elements; when the child raises before [N] elements are read, the
    array raises that error. *)
Theorem Arr_fixed_outcomes (child : desc) (N : Z) (fuel : nat)
    (input : bytes) (steps : list parsed) (rest : bytes) :
  record_free child = true ->
  Arr_run (parse child fuel) input steps rest ->
  let k := len steps in
  (0 < N -> k = N ->
   parse (Arr child N) fuel input
   = Ok (VList (map fst steps), N - 1 + snd (last steps (VNone, 0))))
  /\ (k < N -> rest = [] ->
      parse (Arr child N) fuel input
      = Raise (ValueError ("Not enough elements in array, expected "
                           +++ str_of_Z N +++ " and got "
                           +++ str_of_Z (k - 1) +++ ".")))
  /\ (forall e, k < N -> rest <> [] ->
      parse child fuel rest = Raise e ->
      parse (Arr child N) fuel input = Raise e).
Proof.
  intros _ Hrun k. subst k.
  assert (Hlen : List.length (range (len steps)) = List.length steps)
    by (rewrite range_length; unfold len; lia).
  assert (Htruthy : forall M, 0 < M -> truthy M = true)
    by (intros M HM; unfold truthy; apply negb_true_iff, Z.eqb_neq; lia).
  pose proof (len_nonneg steps) as Hk.
  repeat split.
  - intros HN HkN. cbn [Arr parse]. unfold Arr_parse.
    rewrite (Htruthy N HN). rewrite <- HkN.
    rewrite <- (app_nil_r (range (len steps))).
    rewrite (Arr_for_run _ (len steps) true _ _ _ Hrun _ [] 0 [] Hlen).
    destruct steps as [|s steps]; [unfold len in HkN; simpl in HkN; lia|].
    cbn [Arr_for bind app].
    rewrite range_last by lia. reflexivity.
  - intros HkN ->. cbn [Arr parse]. unfold Arr_parse.
    rewrite (Htruthy N) by lia.
    rewrite (range_app_tail (List.length steps) N) by (unfold len in HkN; lia).
    rewrite (Arr_for_run _ N true _ _ _ Hrun _ _ 0 []) by exact Hlen.
    replace (Z.to_nat N - List.length steps)%nat
      with (S (Z.to_nat N - List.length steps - 1))
      by (unfold len in HkN; lia).
    cbn [seq map].
    destruct steps as [|s steps]; cbn [Arr_for is_empty];
      rewrite (Htruthy N) by lia; reflexivity.
  - intros e HkN Hne Hfail. cbn [Arr parse]. unfold Arr_parse.
    rewrite (Htruthy N) by lia.
    rewrite (range_app_tail (List.length steps) N) by (unfold len in HkN; lia).
    rewrite (Arr_for_run _ N true _ _ _ Hrun _ _ 0 []) by exact Hlen.
    replace (Z.to_nat N - List.length steps)%nat
      with (S (Z.to_nat N - List.length steps - 1))
      by (unfold len in HkN; lia).
    cbn [seq map].
    destruct rest as [|x rest]; [contradiction|].
    destruct steps as [|s steps]; cbn [Arr_for is_empty];
      rewrite Hfail; reflexivity.
Qed.

Lemma repeat_app_tail {A} (x : A) (k m : nat) :
  (k <= m)%nat -> repeat x m = repeat x k ++ repeat x (m - k).
Proof. intros H. rewrite <- repeat_app. f_equal. lia. Qed.

Lemma last_repeat {A} (x : A) (m : nat) : last (repeat x m) x = x.
Proof.
  induction m as [|m IH]; [reflexivity|].
  destruct m; [reflexivity|exact IH].
Qed.

(** X13.  An array without a count, whose child is a descriptor object
    that holds no record object, reads elements until the buffer is empty
    and then returns them, with 0 as its consumed count whatever the
    elements consumed; when the child raises on what is left, the array
    raises that error. *)
Theorem Arr_unbounded_outcomes (child : desc) (fuel : nat) (input : bytes)
    (steps : list parsed) (rest : bytes) :
  record_free child = true ->
  Arr_run (parse child fuel) input steps rest ->
  (List.length steps < fuel)%nat ->
  (rest = [] ->
   parse (Arr child 0) fuel input = Ok (VList (map fst steps), 0))
  /\ (forall e, rest <> [] ->
      parse child fuel rest = Raise e ->
      parse (Arr child 0) fuel input = Raise e).
Proof.
  intros _ Hrun Hfuel.
  assert (Hloop : forall n res,
             Arr_for (parse child fuel) 0 (repeat 0 fuel) false input n res
             = match steps with
               | [] => Arr_for (parse child fuel) 0
                         (repeat 0 (fuel - List.length steps)) false rest
                         n res
               | _ => Arr_for (parse child fuel) 0
                        (repeat 0 (fuel - List.length steps)) false rest
                        (0 + snd (last steps (VNone, 0)))
                        (res ++ map fst steps)
               end).
  { intros n res.
    rewrite (repeat_app_tail 0 (List.length steps) fuel) by lia.
    rewrite (Arr_for_run _ 0 false _ _ _ Hrun) by apply repeat_length.
    rewrite last_repeat. now destruct steps. }
  replace (fuel - List.length steps)%nat
    with (S (fuel - List.length steps - 1)) in Hloop by lia.
  cbn [repeat] in Hloop.
  split.
  - intros ->. cbn [Arr parse]. unfold Arr_parse. cbn [truthy Z.eqb negb].
    rewrite Hloop.
    destruct steps as [|s steps]; reflexivity.
  - intros e Hne Hfail. cbn [Arr parse]. unfold Arr_parse.
    cbn [truthy Z.eqb negb]. rewrite Hloop.
    destruct rest as [|x rest]; [contradiction|].
    destruct steps as [|s steps]; cbn [Arr_for is_empty];
      rewrite Hfail; reflexivity.
Qed.

(* ------------------------------------------------------------------ *)
(** ** Greedy sequences: results, termination and zero-width children *)
(* ------------------------------------------------------------------ *)

Section SeqResults.
Variable child_parse : bytes -> result parsed.
Variable limit : Z.

Lemma Seq_run_count input n steps rest n' :
  Seq_run child_parse limit input n steps rest n' ->
  n' = n + Zsum (map snd steps).
Proof.
  induction 1 as [input n|input n v c steps rest n' _ _ _ _ IH];
    cbn [map snd Zsum fold_right]; [lia|].
  rewrite IH. unfold Zsum. lia.
Qed.

Lemma Seq_while_Ok_inv fuel :
  forall input n res res' n',
    Seq_while child_parse limit fuel input n res = Ok (res', n') ->
    exists steps rest,
      Seq_run child_parse limit input n steps rest n'
      /\ res' = res ++ map fst steps
      /\ (Seq_cond limit rest n' = false
          \/ exists e, child_parse rest = Raise e).
Proof.
  induction fuel as [|fuel IH]; intros input n res res' n'; cbn [Seq_while];
    destruct (Seq_cond limit input n) eqn:Hcond; try discriminate.
  - intros [= <- <-]. exists [], input.
    repeat split; [constructor | now rewrite app_nil_r | now left].
  - destruct (child_parse input) as [[v c]| |] eqn:Hparse; try discriminate.
    + intros Hloop.
      destruct (IH _ _ _ _ _ Hloop) as (steps & rest & Hrun & -> & Hstop).
      exists ((v, c) :: steps), rest. repeat split.
      * apply Seq_cond_true in Hcond as [Hne Hlim]. now constructor.
      * cbn [map fst]. now rewrite <- app_assoc.
      * exact Hstop.
    + intros [= <- <-]. exists [], input.
      repeat split; [constructor | now rewrite app_nil_r | right; eauto].
  - intros [= <- <-]. exists [], input.
    repeat split; [constructor | now rewrite app_nil_r | now left].
Qed.



End SeqResults.

(** X14.  Every result of a greedy sequence whose child holds no record
    object comes from a run of its child: the list holds the elements of
    the run in order, the consumed count is the sum of their counts, each
    element was parsed on a buffer that was not empty and, if a limit is
    set, with fewer bytes counted than the limit, and the run ended because
    the buffer was empty, because the limit was reached, or because the
    child raised on what was left. *)
Theorem Seq_success_is_a_run (child : desc) (limit : Z) (fuel : nat)
    (input : bytes) (v : value) (n : Z) :
  record_free child = true ->
  parse (Seq child limit) fuel input = Ok (v, n) ->
  exists steps rest,
    v = VList (map fst steps)
    /\ n = Zsum (map snd steps)
    /\ Seq_run (parse child fuel) limit input 0 steps rest n
    /\ (rest = []
        \/ (limit <> 0 /\ limit <= n)
        \/ exists e, parse child fuel rest = Raise e).
Proof.
  intros _. cbn [Seq parse]. unfold Seq_parse.
  destruct (Seq_while _ _ _ _ _ _) as [[res n']| |] eqn:Hloop; cbn [bind];
    try discriminate.
  intros [= <- <-].
  destruct (Seq_while_Ok_inv _ _ _ _ _ _ _ _ Hloop)
    as (steps & rest & Hrun & -> & Hstop).
  exists steps, rest. repeat split; auto.
  - now rewrite (Seq_run_count _ _ _ _ _ _ _ Hrun).
  - destruct Hstop as [Hcond|Hraise]; [|now right; right].
    apply Seq_cond_false in Hcond as [Hempty|Hlimit];
      [now left|right; now left].
Qed.




(* ------------------------------------------------------------------ *)
(** ** Consumed counts are not negative *)
(* ------------------------------------------------------------------ *)

Lemma aligned_nonneg (A c : Z) : 0 <= A -> 0 <= c -> 0 <= aligned A c.
Proof.
  intros HA Hc. unfold aligned, truthy.
  destruct (Z.eqb_spec A 0); cbn [negb]; [exact Hc|].
  pose proof (Z.mod_pos_bound c A ltac:(lia)). lia.
Qed.

Lemma Struct_for_nonneg {F} (parser_parse : F -> bytes -> result parsed)
    (_align : Z) (_union : bool) (names : list string)
    (spec : list (string * F)) :
  plain_names names = true ->
  0 <= _align ->
  incl (map fst spec) names ->
  Forall (fun f => nonneg_count (parser_parse (snd f))) spec ->
  forall input n self self' n',
    incl (map fst self) names ->
    0 <= n ->
    Struct_for parser_parse _align _union spec input n self = Ok (self', n') ->
    0 <= n'.
Proof.
  intros Hplain HA.
  induction spec as [|[name parser] spec IH];
    intros Hnames Hspec input n self self' n' Hself Hn.
  - cbn [Struct_for]. now intros [= _ <-].
  - assert (Hname : In name names) by (apply Hnames; now left).
    assert (Hnames' : incl (map fst spec) names)
      by (intros x Hx; apply Hnames; now right).
    rewrite (Struct_for_cons_plain _ _ _ names Hplain) by assumption.
    inversion Hspec as [|f spec0 Hp Hrest]; subst. cbn [snd] in Hp.
    destruct (parser_parse parser input) as [[val c]| |] eqn:Hparse;
      cbn [bind]; try discriminate.
    apply Hp in Hparse. pose proof (aligned_nonneg _align c HA Hparse).
    pose proof (setattr_keys self name val names Hname Hself) as Hself'.
    destruct _union; apply IH; auto; lia.
Qed.

Lemma Arr_for_unbounded_count (child_parse : bytes -> result parsed)
    (fuel : nat) :
  forall input n res res' n',
    Arr_for child_parse 0 (repeat 0 fuel) false input n res = Ok (res', n') ->
    n' = 0.
Proof.
  induction fuel as [|fuel IH]; intros input n res res' n';
    cbn [repeat Arr_for]; [discriminate|].
  destruct (is_empty input); [now intros [= _ <-]|].
  destruct (child_parse input) as [[v c]| |]; cbn [bind]; try discriminate.
  apply IH.
Qed.

Lemma Seq_while_nonneg (child_parse : bytes -> result parsed) (limit : Z) :
  nonneg_count child_parse ->
  forall fuel input n res res' n',
    0 <= n ->
    Seq_while child_parse limit fuel input n res = Ok (res', n') ->
    0 <= n'.
Proof.
  intros Hchild.
  induction fuel as [|fuel IH]; intros input n res res' n' Hn;
    cbn [Seq_while]; destruct (Seq_cond limit input n);
    try discriminate; try (now intros [= _ <-]).
  destruct (child_parse input) as [[v c]| |] eqn:Hparse; try discriminate.
  - apply IH. apply Hchild in Hparse. lia.
  - now intros [= _ <-].
Qed.

(** X17.  When every number a descriptor is configured with (amount,
    maximum length, stride, count, limit) is non-negative, down to its
    innermost children, and its records have plain field names (no field
    named after an attribute that parsing reads, such as [_align]), the
    consumed count of a parse that succeeds is not negative. *)
Theorem consumed_nonneg (d : desc) :
  nonneg_config d = true ->
  plain_fields d = true ->
  forall fuel input v c,
    parse d fuel input = Ok (v, c) -> 0 <= c.
Proof.
  induction d using desc_induction; intros Hd Hpl fuel input v c;
    cbn [nonneg_config] in Hd; cbn [plain_fields] in Hpl.
  - discriminate.
  - intros Hparse.
    destruct (Int_parse_Ok_inv _ _ _ _ _ _ _ Hparse)
      as (e & kind & _ & _ & Hsize & _).
    apply code_size_positive in Hsize. simpl in Hsize. lia.
  - discriminate.
  - cbn [parse]. unfold Sig_parse. destruct (bytes_eqb _ _); [|discriminate].
    intros [= _ <-]. apply len_nonneg.
  - cbn [parse]. unfold Str_parse. apply Z.leb_le in Hd.
    destruct (truthy maxlen); cbn [bind]; [|discriminate].
    destruct (decode _ _); cbn [bind]; try discriminate.
    now intros [= _ <-].
  - cbn [parse]. unfold Pad_parse. apply Z.leb_le in Hd.
    destruct (len input <? amount); [discriminate|]. now intros [= _ <-].
  - cbn [parse]. unfold Data_parse. apply Z.leb_le in Hd.
    destruct (len input <? amount); [discriminate|]. now intros [= _ <-].
  - apply andb_true_iff in Hd as [HA Hfields]. apply Z.leb_le in HA.
    apply andb_true_iff in Hpl as [Hnames Hplf].
    rewrite parse_Struct. unfold Struct_parse.
    destruct (Struct_for _ _ _ _ _ _ _) as [[self n]| |] eqn:Hloop;
      cbn [bind]; try discriminate.
    intros [= _ <-].
    eapply (Struct_for_nonneg (field_parse fuel) _align _union
              (map fst _spec) _spec Hnames HA);
      [apply incl_refl| | | |exact Hloop]; [|intros x []|lia].
    rewrite forallb_forall in Hfields, Hplf. rewrite Forall_forall in *.
    intros [name [p|]] Hin input' v' c'; cbn [snd field_parse].
    + apply (H _ Hin); [exact (Hfields _ Hin)|exact (Hplf _ Hin)].
    + discriminate.
  - rewrite forallb_forall in Hd, Hpl. rewrite Forall_forall in H.
    cbn [parse]. unfold Any_parse. intros Hany.
    apply Any_for_inv in Hany as (child & Hin & Hchild).
    exact (H child Hin (Hd child Hin) (Hpl child Hin) fuel input v c Hchild).
  - apply andb_true_iff in Hd as [HN Hchild]. apply Z.leb_le in HN.
    destruct (Z.eq_dec length 0) as [->|Hne].
    + cbn [parse]. unfold Arr_parse. cbn [truthy Z.eqb negb].
      destruct (Arr_for _ _ _ _ _ _ _) as [[res n]| |] eqn:Hloop;
        cbn [bind]; try discriminate.
      intros [= _ <-]. apply Arr_for_unbounded_count in Hloop. lia.
    + intros Hparse.
      destruct (Arr_fixed_result d length fuel input v c ltac:(lia) Hparse)
        as (res & _ & _ & rest & v' & c' & Hlast & ->).
      pose proof (IHd Hchild Hpl _ _ _ _ Hlast). lia.
  - apply andb_true_iff in Hd as [_ Hchild].
    cbn [parse]. unfold Seq_parse.
    destruct (Seq_while _ _ _ _ _ _) as [[res n]| |] eqn:Hloop;
      cbn [bind]; try discriminate.
    intros [= _ <-].
    eapply (Seq_while_nonneg _ limit); [|reflexivity|exact Hloop].
    intros input' v' c'. now apply IHd.
Qed.

(* ------------------------------------------------------------------ *)
(** ** The message of a choice that matched nothing *)
(* ------------------------------------------------------------------ *)

Lemma str_app_assoc (a c d : string) : (a +++ c) +++ d = a +++ (c +++ d).
Proof. induction a as [|x a IH]; simpl; [reflexivity|now rewrite IH]. Qed.

Lemma str_app_nil_r (a : string) : a +++ EmptyString = a.
Proof. induction a as [|x a IH]; simpl; [reflexivity|now rewrite IH]. Qed.

Lemma str_contains_app (c : ascii) (a d : string) :
  str_contains c (a +++ d) = str_contains c a || str_contains c d.
Proof.
  induction a as [|x a IH]; simpl; [reflexivity|].
  rewrite IH. now rewrite orb_assoc.
Qed.

Lemma split_lines_from_cur (s cur : string) :
  split_lines_from cur s
  = match split_lines s with
    | first :: others => (cur +++ first) :: others
    | [] => [cur]
    end.
Proof.
  unfold split_lines. revert cur.
  assert (H : forall cur acc,
             split_lines_from (cur +++ acc) s
             = match split_lines_from acc s with
               | first :: others => (cur +++ first) :: others
               | [] => [cur]
               end).
  { induction s as [|x s IH]; intros cur acc; cbn [split_lines_from].
    - reflexivity.
    - destruct (Ascii.eqb x "010"); [reflexivity|].
      rewrite str_app_assoc. apply IH. }
  intros cur. rewrite <- (str_app_nil_r cur) at 1. apply H.
Qed.

Lemma split_lines_one_line (s : string) :
  one_line s -> split_lines s = [s].
Proof.
  unfold one_line, split_lines.
  assert (H : forall cur, str_contains "010" s = false ->
                          split_lines_from cur s = [cur +++ s]).
  { induction s as [|x s IH]; intros cur; cbn [split_lines_from str_contains].
    - now rewrite str_app_nil_r.
    - destruct (Ascii.eqb x "010"); [discriminate|]. cbn [orb]. intros Hs.
      rewrite IH by exact Hs. now rewrite str_app_assoc. }
  intros Hs. now rewrite (H EmptyString Hs).
Qed.

Lemma split_lines_nl (a d : string) :
  split_lines (a +++ nl +++ d) = split_lines a ++ split_lines d.
Proof.
  unfold split_lines.
  assert (H : forall cur,
             split_lines_from cur (a +++ nl +++ d)
             = split_lines_from cur a ++ split_lines_from EmptyString d).
  { induction a as [|x a IH]; intros cur.
    - reflexivity.
    - cbn [String.append split_lines_from].
      destruct (Ascii.eqb x "010"); [|apply IH].
      cbn [app]. f_equal. apply IH. }
  apply H.
Qed.

Lemma split_lines_head (a d : string) :
  one_line a ->
  split_lines (a +++ d)
  = match split_lines d with
    | first :: others => (a +++ first) :: others
    | [] => [a]
    end.
Proof.
  unfold one_line. intros Ha. rewrite <- split_lines_from_cur.
  unfold split_lines.
  assert (H : forall cur,
             split_lines_from cur (a +++ d) = split_lines_from (cur +++ a) d).
  { revert Ha. induction a as [|x a IH]; intros Ha cur.
    - cbn. now rewrite str_app_nil_r.
    - cbn [str_contains] in Ha. cbn [String.append split_lines_from].
      destruct (Ascii.eqb x "010"); [discriminate|].
      rewrite IH by exact Ha. now rewrite str_app_assoc. }
  apply H.
Qed.

Lemma split_lines_are_lines (s : string) :
  Forall one_line (split_lines s).
Proof.
  unfold split_lines.
  assert (H : forall cur, one_line cur ->
                          Forall one_line (split_lines_from cur s)).
  { induction s as [|x s IH]; intros cur Hcur; cbn [split_lines_from].
    - now constructor.
    - destruct (Ascii.eqb x "010") eqn:Hx.
      + constructor; [exact Hcur|]. now apply IH.
      + apply IH. unfold one_line in *. rewrite str_contains_app, Hcur.
        cbn. now rewrite Hx. }
  now apply H.
Qed.

Lemma split_lines_nonempty (s : string) : split_lines s <> [].
Proof.
  unfold split_lines. generalize EmptyString as cur.
  induction s as [|x s IH]; intros cur; cbn [split_lines_from];
    [discriminate|].
  destruct (Ascii.eqb x "010"); [discriminate|apply IH].
Qed.

Lemma split_lines_join (ls : list string) :
  ls <> [] -> split_lines (join nl ls) = List.concat (map split_lines ls).
Proof.
  induction ls as [|l ls IH]; intros Hne; [contradiction|].
  destruct ls as [|l' ls].
  - cbn. now rewrite app_nil_r.
  - change (join nl (l :: l' :: ls)) with (l +++ nl +++ join nl (l' :: ls)).
    rewrite split_lines_nl, IH by discriminate. reflexivity.
Qed.

Lemma partition_nl_spec (s : string) :
  str_contains "010" s = true ->
  let '(first, others) := partition_nl s in
  s = first +++ nl +++ others /\ one_line first.
Proof.
  unfold one_line.
  induction s as [|x s IH]; cbn [str_contains partition_nl]; [discriminate|].
  destruct (Ascii.eqb x "010") eqn:Hx.
  - intros _. apply Ascii.eqb_eq in Hx. subst x. now split.
  - cbn [orb]. intros Hs. specialize (IH Hs).
    destruct (partition_nl s) as [first others]. destruct IH as [-> Hfirst].
    split; [reflexivity|]. cbn [str_contains]. now rewrite Hx.
Qed.

Lemma concat_map_singleton {A} (f : A -> list A) (l : list A) :
  (forall x, In x l -> f x = [x]) -> List.concat (map f l) = l.
Proof.
  induction l as [|x l IH]; intros H; [reflexivity|].
  cbn. rewrite (H x) by now left. cbn. f_equal. apply IH.
  intros y Hy. apply H. now right.
Qed.

(** The message of one failure keeps its first line and pushes the others
    right by two spaces. *)
Lemma indent_message_lines (message : string) :
  split_lines (indent_message message)
  = match split_lines message with
    | first :: others => first :: map (fun line => "  " +++ line) others
    | [] => []
    end.
Proof.
  unfold indent_message.
  destruct (str_contains "010" message) eqn:Hnl.
  - pose proof (partition_nl_spec message Hnl) as Hpart.
    destruct (partition_nl message) as [first others].
    destruct Hpart as [-> Hfirst].
    rewrite !split_lines_nl, (split_lines_one_line first Hfirst).
    cbn [app]. f_equal.
    pose proof (split_lines_are_lines others) as Hlines.
    destruct (split_lines others) as [|l ls] eqn:Hsplit.
    { exfalso. now apply (split_lines_nonempty others). }
    rewrite split_lines_join by discriminate.
    apply concat_map_singleton.
    intros x Hx. apply in_map_iff in Hx as (y & <- & Hy).
    apply split_lines_one_line. rewrite Forall_forall in Hlines.
    specialize (Hlines y Hy). unfold one_line in *.
    now rewrite str_contains_app, Hlines.
  - rewrite (split_lines_one_line message Hnl). reflexivity.
Qed.

(** X18.  The message of a choice that matched nothing is laid out in
    lines: the heading, then for each candidate, in order, the line with
    its class name, the class name of its exception and the first line of
    the exception's message, followed by the other lines of that message
    pushed right by two spaces, so that the failure of a nested choice
    reads as an indented block. *)
Theorem Any_error_lines (failures : list (string * exn)) :
  failures <> [] ->
  Forall (fun f => one_line (fst f) /\ one_line (exn_type (snd f)))
         failures ->
  split_lines (exn_msg (Any_error failures))
  = "Expected any of the following, nothing matched:"
    :: List.concat (map Any_entry_lines failures).
Proof.
  intros Hne Hnames. unfold Any_error, ValueError. cbn [exn_msg].
  rewrite split_lines_nl.
  rewrite split_lines_one_line by reflexivity. cbn [app]. f_equal.
  rewrite split_lines_join by (destruct failures; [contradiction|discriminate]).
  rewrite map_map. f_equal.
  apply map_ext_in. intros [c e] Hin.
  rewrite Forall_forall in Hnames. destruct (Hnames _ Hin) as [Hc He].
  cbn [fst snd] in *.
  unfold Any_line, Any_entry_lines. cbn [fst snd].
  assert (Hhead : one_line ("- " +++ c +++ ": " +++ exn_type e +++ ": ")).
  { unfold one_line in *.
    rewrite !str_contains_app, Hc, He. reflexivity. }
  replace ("- " +++ c +++ ": " +++ exn_type e +++ ": "
           +++ indent_message (exn_msg e))
    with (("- " +++ c +++ ": " +++ exn_type e +++ ": ")
          +++ indent_message (exn_msg e))
    by (now rewrite !str_app_assoc).
  rewrite (split_lines_head _ _ Hhead), indent_message_lines.
  destruct (split_lines (exn_msg e)) as [|first others] eqn:Hsplit;
    [exfalso; now apply (split_lines_nonempty (exn_msg e))|].
  now rewrite !str_app_assoc.
Qed.

(* ------------------------------------------------------------------ *)
(** ** Class declarations *)
(* ------------------------------------------------------------------ *)

Lemma filter_all {A} (p : A -> bool) (l : list A) :
  (forall x, In x l -> p x = true) -> filter p l = l.
Proof.
  induction l as [|x l IH]; intros H; [reflexivity|].
  cbn [filter]. rewrite (H x) by now left.
  f_equal. apply IH. intros y Hy. apply H. now right.
Qed.

Lemma filter_twice {A} (p q : A -> bool) (l : list A) :
  filter p (filter q l) = filter (fun x => q x && p x) l.
Proof.
  induction l as [|x l IH]; [reflexivity|]. cbn [filter].
  destruct (q x); cbn [andb filter]; [|exact IH].
  destruct (p x); now rewrite IH.
Qed.

Section Dict.
Context {V : Type}.
Implicit Types (d items : list (string * V)).

Lemma has_key_In d key : has_key d key = true <-> In key (map fst d).
Proof.
  unfold has_key. rewrite existsb_exists. split.
  - intros (x & Hin & Heq). apply String.eqb_eq in Heq. now subst.
  - intros Hin. exists key. split; [exact Hin|apply String.eqb_refl].
Qed.

Lemma has_key_false d key : has_key d key = false <-> ~ In key (map fst d).
Proof.
  rewrite <- has_key_In. destruct (has_key d key); split; intuition congruence.
Qed.

Lemma getitem_None d key :
  ~ In key (map fst d) -> getitem String.eqb d key = None.
Proof.
  induction d as [|[k v] d IH]; intros Hnot; [reflexivity|].
  cbn [getitem]. cbn [map fst In] in Hnot.
  destruct (String.eqb_spec k key); [tauto|]. apply IH. tauto.
Qed.

Lemma getitem_In d key v :
  NoDup (map fst d) -> In (key, v) d -> getitem String.eqb d key = Some v.
Proof.
  induction d as [|[k v0] d IH]; intros Hnodup Hin; [contradiction|].
  cbn [getitem]. cbn [map fst] in Hnodup. inversion Hnodup; subst.
  destruct Hin as [[= -> ->]|Hin].
  - now rewrite String.eqb_refl.
  - destruct (String.eqb_spec k key) as [->|_]; [|now apply IH].
    exfalso. apply H1. apply in_map_iff. now exists (key, v).
Qed.

Lemma dict_set_absent d key v :
  ~ In key (map fst d) -> dict_set d key v = d ++ [(key, v)].
Proof.
  induction d as [|[k v0] d IH]; intros Hnot; [reflexivity|].
  cbn [dict_set]. cbn [map fst In] in Hnot.
  destruct (String.eqb_spec k key); [tauto|].
  rewrite IH by tauto. reflexivity.
Qed.

Lemma dict_set_present d key v :
  NoDup (map fst d) -> In key (map fst d) ->
  dict_set d key v
  = map (fun kv => if String.eqb (fst kv) key then (fst kv, v) else kv) d.
Proof.
  induction d as [|[k v0] d IH]; intros Hnodup Hin; [contradiction|].
  cbn [dict_set map fst]. cbn [map fst] in Hnodup, Hin.
  inversion Hnodup; subst.
  destruct (String.eqb_spec k key) as [->|Hne].
  - f_equal. symmetry. rewrite <- (map_id d) at 2. apply map_ext_in.
    intros [k' v'] Hin'. cbn [fst].
    destruct (String.eqb_spec k' key) as [->|_]; [|reflexivity].
    exfalso. apply H1. apply in_map_iff. now exists (key, v').
  - f_equal. apply IH; [assumption|]. destruct Hin; [contradiction|assumption].
Qed.

Lemma dict_set_keys d key v :
  map fst (dict_set d key v)
  = if has_key d key then map fst d else map fst d ++ [key].
Proof.
  induction d as [|[k v0] d IH]; [reflexivity|].
  cbn [dict_set]. unfold has_key in *. cbn [map fst existsb].
  rewrite (String.eqb_sym key k).
  destruct (String.eqb k key); cbn [orb map fst]; [reflexivity|].
  rewrite IH. now destruct (existsb _ _).
Qed.

Lemma dict_set_NoDup d key v :
  NoDup (map fst d) -> NoDup (map fst (dict_set d key v)).
Proof.
  intros Hnodup. rewrite dict_set_keys.
  destruct (has_key d key) eqn:Hkey; [exact Hnodup|].
  apply has_key_false in Hkey.
  apply NoDup_app; [exact Hnodup | repeat constructor; intros [] |].
  intros x Hx [<-|[]]. contradiction.
Qed.

Lemma dict_update_NoDup items : forall d,
  NoDup (map fst d) -> NoDup (map fst (dict_update d items)).
Proof.
  unfold dict_update.
  induction items as [|[k v] items IH]; intros d Hd; [exact Hd|].
  cbn [fold_left fst snd]. apply IH. now apply dict_set_NoDup.
Qed.


Lemma dict_del_filter (ks : list string) : forall d,
  NoDup (map fst d) ->
  fold_left dict_del ks d
  = filter (fun kv => negb (existsb (String.eqb (fst kv)) ks)) d.
Proof.
  induction ks as [|k ks IH]; intros d Hd.
  - cbn [fold_left existsb negb]. symmetry. now apply filter_all.
  - cbn [fold_left existsb].
    assert (Hdel : dict_del d k
                   = filter (fun kv => negb (String.eqb (fst kv) k)) d
                   /\ NoDup (map fst (dict_del d k))).
    { clear IH.
      induction d as [|[k0 v0] d IHd]; [split; [reflexivity|constructor]|].
      cbn [map fst] in Hd. inversion Hd; subst.
      destruct (IHd H2) as [IHeq IHnd].
      cbn [dict_del filter fst].
      destruct (String.eqb_spec k0 k) as [->|Hne]; cbn [negb].
      - split; [|exact H2].
        symmetry. apply filter_all.
        intros [k' v'] Hin. cbn [fst].
        destruct (String.eqb_spec k' k) as [->|_]; [|reflexivity].
        exfalso. apply H1. apply in_map_iff. now exists (k, v').
      - split; [now rewrite IHeq|].
        cbn [map fst]. constructor; [|exact IHnd].
        rewrite IHeq. intros Hin. apply H1.
        apply in_map_iff in Hin as (x & Hx & Hin).
        apply filter_In in Hin as [Hin _].
        apply in_map_iff. now exists x. }
    destruct Hdel as [Hdel Hnd].
    rewrite IH by exact Hnd. rewrite Hdel.
    rewrite filter_twice. apply filter_ext. intros kv.
    now rewrite negb_orb.
Qed.
End Dict.

Lemma overridden_empty (kv : string * option desc) : overridden [] kv = kv.
Proof. now destruct kv. Qed.

(** Updating a mapping: the entries it has keep their places and take the
    new values, and the new names follow in their own order. *)
Lemma dict_update_shape (items : shape) : forall d : shape,
  NoDup (map fst d) -> NoDup (map fst items) ->
  dict_update d items
  = map (overridden items) d
    ++ filter (fun kv => negb (has_key d (fst kv))) items.
Proof.
  induction items as [|[k v] items IH]; intros d Hd Hitems.
  - cbn [dict_update fold_left filter].
    rewrite app_nil_r. symmetry. rewrite <- (map_id d) at 2.
    apply map_ext. apply overridden_empty.
  - cbn [map fst] in Hitems. inversion Hitems as [|k0 ks Hk Hrest]; subst.
    unfold dict_update. cbn [fold_left fst snd].
    fold (dict_update (dict_set d k v) items).
    rewrite IH by (auto using dict_set_NoDup).
    cbn [filter fst].
    destruct (has_key d k) eqn:Hkey; cbn [negb].
    + apply has_key_In in Hkey.
      rewrite dict_set_present by assumption.
      rewrite map_map. f_equal.
      * apply map_ext. intros [k' v']. cbn [fst].
        unfold overridden. cbn [getitem fst snd].
        rewrite (String.eqb_sym k k').
        destruct (String.eqb_spec k' k) as [->|_]; cbn [fst snd].
        -- now rewrite (getitem_None items k Hk).
        -- reflexivity.
      * apply filter_ext. intros kv. f_equal. unfold has_key.
        f_equal. rewrite map_map. apply map_ext. intros x.
        now destruct (String.eqb (fst x) k).
    + apply has_key_false in Hkey.
      rewrite dict_set_absent by assumption.
      rewrite map_app. cbn [map]. rewrite <- app_assoc. cbn [app].
      f_equal; [|f_equal].
      * apply map_ext_in. intros [k' v'] Hin. unfold overridden.
        cbn [getitem fst snd].
        destruct (String.eqb_spec k k') as [->|_]; [|reflexivity].
        exfalso. apply Hkey. apply in_map_iff. now exists (k', v').
      * unfold overridden. cbn [fst snd].
        now rewrite (getitem_None items k Hk).
      * apply filter_ext_in. intros [k' v'] Hin. cbn [fst]. f_equal.
        unfold has_key. rewrite map_app, existsb_app. cbn [map fst existsb].
        destruct (String.eqb_spec k' k) as [->|_];
          [|now rewrite !orb_false_r].
        exfalso. apply Hk. apply in_map_iff. now exists (k, v').
Qed.

Lemma collect_fields_split (items : list (string * classattr)) :
  forall spec attrs,
    collect_fields items spec attrs
    = (dict_update spec (declared_fields items),
       fold_left dict_del (map fst (declared_fields items)) attrs).
Proof.
  unfold collect_fields, dict_update.
  induction items as [|[k v] items IH]; intros spec attrs; [reflexivity|].
  cbn [fold_left declared_fields fst snd].
  destruct (as_field v) as [f|]; cbn [fold_left map fst snd]; apply IH.
Qed.

Lemma declared_fields_keys (attrs : list (string * classattr)) :
  map fst (declared_fields attrs)
  = map fst (filter (fun kv => is_field (snd kv)) attrs).
Proof.
  induction attrs as [|[k v] attrs IH]; [reflexivity|].
  cbn [declared_fields filter snd]. unfold is_field.
  destruct (as_field v); cbn [map fst]; now rewrite IH.
Qed.

Lemma inherited_spec_NoDup (bases : list (option shape)) :
  NoDup (map fst (inherited_spec bases)).
Proof.
  unfold inherited_spec.
  assert (H : forall spec : shape,
             NoDup (map fst spec) ->
             NoDup (map fst (fold_left
                               (fun spec base =>
                                  dict_update spec
                                    match base with
                                    | Some s => s
                                    | None => []
                                    end) bases spec))).
  { induction bases as [|base bases IH]; intros spec Hs; [exact Hs|].
    cbn [fold_left]. apply IH. now apply dict_update_NoDup. }
  apply H. constructor.
Qed.

Lemma filter_keys_NoDup {V} (keep : string * V -> bool)
    (d : list (string * V)) :
  NoDup (map fst d) -> NoDup (map fst (filter keep d)).
Proof.
  intros Hd. induction d as [|[k v] d IHd]; cbn [filter map fst].
  - constructor.
  - apply NoDup_cons_iff in Hd as [Hk Hd].
    destruct (keep (k, v)); [|exact (IHd Hd)].
    cbn [map fst]. apply NoDup_cons_iff. split; [|exact (IHd Hd)].
    intros Hin. apply Hk. apply in_map_iff in Hin as ([k' v'] & Hk' & Hin).
    apply filter_In in Hin as [Hin _]. cbn [fst] in Hk'. subst k'.
    apply in_map_iff. exists (k, v'). split; [reflexivity|exact Hin].
Qed.

(** X19.  The field mapping of a declared class: the fields inherited from
    the bases come first, in the order the bases give them, each with the
    descriptor the class body declares under its name if it declares one;
    the fields the body adds follow, in the order of their declaration.  A
    single base whose names are distinct hands its mapping on as it is. *)
Theorem MetaStruct_new_field_order (bases : list (option shape))
    (attrs : list (string * classattr)) :
  NoDup (map fst attrs) ->
  let inherited := inherited_spec bases in
  let fields := declared_fields attrs in
  fst (MetaStruct_new bases attrs)
  = map (overridden fields) inherited
    ++ filter (fun kv => negb (has_key inherited (fst kv))) fields
  /\ forall base : shape,
      NoDup (map fst base) -> inherited_spec [Some base] = base.
Proof.
  intros Hattrs inherited fields. split.
  - unfold MetaStruct_new. rewrite collect_fields_split. cbn [fst].
    apply dict_update_shape; [apply inherited_spec_NoDup|].
    subst fields. rewrite declared_fields_keys.
    now apply filter_keys_NoDup.
  - intros base Hbase. unfold inherited_spec. cbn [fold_left].
    rewrite dict_update_shape by (auto; constructor).
    cbn [map app]. now apply filter_all.
Qed.

(** X20.  The namespace of a declared class: the fields have left it, every
    other name keeps its value and its place, and [_spec] holds the field
    mapping. *)
Theorem MetaStruct_new_namespace (bases : list (option shape))
    (attrs : list (string * classattr)) :
  NoDup (map fst attrs) ->
  snd (MetaStruct_new bases attrs)
  = dict_set (filter (fun kv => negb (is_field (snd kv))) attrs) "_spec"
             (AttrSpec (fst (MetaStruct_new bases attrs))).
Proof.
  intros Hattrs. unfold MetaStruct_new. rewrite collect_fields_split.
  cbn [fst snd]. f_equal.
  rewrite dict_del_filter by exact Hattrs.
  apply filter_ext_in. intros [k v] Hin. cbn [fst snd]. f_equal.
  rewrite declared_fields_keys.
  destruct (is_field v) eqn:Hv.
  - apply existsb_exists. exists k. split; [|apply String.eqb_refl].
    apply in_map_iff. exists (k, v). split; [reflexivity|].
    apply filter_In. now split.
  - destruct (existsb _ _) eqn:Hex; [|reflexivity].
    apply existsb_exists in Hex as (k' & Hin' & Heq).
    apply String.eqb_eq in Heq. subst k'.
    apply in_map_iff in Hin' as ([k' v'] & Hk & Hin').
    cbn [fst] in Hk. subst k'. apply filter_In in Hin' as [Hin' Hv'].
    cbn [snd] in Hv'.
    assert (Some v = Some v') as [= ->]; [|congruence].
    rewrite <- (getitem_In attrs k v Hattrs Hin).
    now apply getitem_In.
Qed.

Section DictLookup.
Context {V : Type}.
Implicit Types (d items : list (string * V)).



End DictLookup.



(* ------------------------------------------------------------------ *)
(** ** Classes handed to [parse] *)
(* ------------------------------------------------------------------ *)

(** X22.  Handed a class, [parse] yields data only for a record class that
    does not derive from [Union], which it parses as a new object of the
    class, and for [Pad] and [Data], which consume nothing.  [Union] and
    every class that inherits its [__init__] cannot be instantiated: [parse]
    raises a [TypeError] before it reads the buffer. *)
Theorem parse_spec_of_class (fuel : nat) (input : bytes) :
  (forall c v n,
      parse_spec (ArgClass c) fuel input = Ok (v, n) ->
      (c = CPad /\ v = VNone /\ n = 0)
      \/ (c = CData /\ v = VBytes [] /\ n = 0)
      \/ exists cls _align _union _spec,
           c = CRecord false cls _align _union _spec
           /\ parse (StructObj cls _align _union _spec) fuel input
              = Ok (v, n))
  /\ (forall cls _align _union _spec,
      parse_spec (ArgClass (CRecord true cls _align _union _spec)) fuel input
      = Raise (TypeError ("object.__init__() takes exactly one argument "
                          +++ "(the instance to initialize)"))).
Proof.
  split; [|reflexivity].
  intros c v n. unfold parse_spec.
  assert (Hlen : (len input <? 0) = false)
    by (apply Z.ltb_ge, len_nonneg).
  destruct c; cbn [to_parser instantiate bind]; try discriminate;
    try (cbn; discriminate).
  - (* Pad *)
    cbn [Pad parse]. unfold Pad_parse. rewrite Hlen.
    intros [= <- <-]. now left.
  - (* Data *)
    cbn [Data parse]. unfold Data_parse. rewrite Hlen.
    intros [= <- <-]. right. now left.
  - (* records *)
    destruct from_Union; cbn; [discriminate|].
    intros H. right. right. now exists cls, _align, _union, _spec.
Qed.

End Host.

(* ------------------------------------------------------------------ *)
(** ** Concrete runs on a little-endian host *)
(* ------------------------------------------------------------------ *)

(** A record with a stride of 4 and one 8-bit field parses the 1-byte buffer
    [b'\x01'] and records 4 consumed bytes, the padding included; a string
    of maximum length 10 parses the 2-byte buffer [b'hi'] and records 10; a
    record without a stride whose first field is named [_align] parses the
    2-byte buffer [b'\x04\x01'], pads its second field to the stride 4 that
    the first has set, and records 5. *)
Lemma consumed_beyond_buffer :
  parse LittleEndian
        (StructObj "S" 4 false [("a", Some (Int 8 true "little"))]) 0 [x01]
  = Ok (VObj "S" [("a", VInt 1)], 4)
  /\ ~ (4 <= len [x01])
  /\ parse LittleEndian (Str 10 utf_8) 0 (b "hi")
     = Ok (VStr [104; 105]%N, 10)
  /\ ~ (10 <= len (b "hi"))
  /\ parse LittleEndian
           (StructObj "S" 0 false [("_align", Some (Int 8 true "little"));
                                   ("b", Some (Int 8 true "little"))])
           0 [x04; x01]
     = Ok (VObj "S" [("_align", VInt 4); ("b", VInt 1)], 5)
  /\ ~ (5 <= len [x04; x01]).
Proof.
  split; [reflexivity|]. split; [vm_compute; intros H; now apply H|].
  split; [reflexivity|]. split; [vm_compute; intros H; now apply H|].
  split; [reflexivity | vm_compute; intros H; now apply H].
Defined.

Lemma consumed_within_buffer_witness :
  checks_buffer (StructObj "S" 0 false
                   [("a", Some (Int 16 true "little"));
                    ("tail", Some (Seq (Sig (b "ab")) 0))]) = true
  /\ plain_fields (StructObj "S" 0 false
                     [("a", Some (Int 16 true "little"));
                      ("tail", Some (Seq (Sig (b "ab")) 0))]) = true
  /\ parse LittleEndian
           (StructObj "S" 0 false
              [("a", Some (Int 16 true "little"));
               ("tail", Some (Seq (Sig (b "ab")) 0))])
           3 ([x01; x00] ++ b "ababXX")
     = Ok (VObj "S" [("a", VInt 1);
                     ("tail", VList [VBytes (b "ab"); VBytes (b "ab")])], 6)
  /\ 6 <= len ([x01; x00] ++ b "ababXX").
Proof.
  split; [reflexivity|]. split; [reflexivity|]. split; [reflexivity|].
  apply (consumed_within_buffer LittleEndian
           (StructObj "S" 0 false
              [("a", Some (Int 16 true "little"));
               ("tail", Some (Seq (Sig (b "ab")) 0))])
           eq_refl eq_refl
           3%nat ([x01; x00] ++ b "ababXX")
           (VObj "S" [("a", VInt 1);
                      ("tail", VList [VBytes (b "ab"); VBytes (b "ab")])])
           6).
  reflexivity.
Defined.



Lemma Any_first_success_or_all_failures_witness :
  parse LittleEndian (Any [Sig (b "ab"); Sig (b "XX"); Pad 100]) 0 (b "XXyz")
  = Ok (VBytes (b "XX"), 2)
  /\ parse LittleEndian (Any [Sig (b "ab"); Pad 100]) 0 (b "XX")
     = Raise (ValueError
                ("Expected any of the following, nothing matched:" +++ nl
                 +++ "- Sig: ValueError: b'XX' does not match expected b'ab'!"
                 +++ nl
                 +++ "- Pad: ValueError: "
                 +++ "Padding too little (expected 100, got 2)!")).
Proof.
  split.
  - apply (proj1 (Any_first_success_or_all_failures LittleEndian
                    [Sig (b "ab"); Sig (b "XX"); Pad 100] 0 (b "XXyz"))
                 [Sig (b "ab")] (Sig (b "XX")) [Pad 100]
                 [ValueError "b'XX' does not match expected b'ab'!"]).
    + reflexivity.
    + repeat constructor.
    + reflexivity.
  - apply (proj2 (Any_first_success_or_all_failures LittleEndian
                    [Sig (b "ab"); Pad 100] 0 (b "XX"))
                 [ValueError "b'XX' does not match expected b'ab'!";
                  ValueError "Padding too little (expected 100, got 2)!"]).
    repeat constructor.
Defined.



(* ------------------------------------------------------------------ *)
(** ** Concrete runs for the properties beyond the claims *)
(* ------------------------------------------------------------------ *)

Lemma Int_parse_reads_prefix_witness :
  parse LittleEndian (Int 16 true "big") 0 [x01]
  = Raise (struct_error "unpack requires a buffer of 2 bytes")
  /\ parse LittleEndian (Int 16 true "big") 0 [x01; x02; x03]
     = Ok (VInt 258, 2).
Proof.
  split.
  - apply (proj1 (Int_parse_reads_prefix LittleEndian 16 true "big"
                    ">"%char "h"%char 2 0 [x01] eq_refl eq_refl eq_refl)).
    reflexivity.
  - apply (proj2 (Int_parse_reads_prefix LittleEndian 16 true "big"
                    ">"%char "h"%char 2 0 [x01; x02; x03]
                    eq_refl eq_refl eq_refl)).
    discriminate.
Defined.

Lemma Int_parse_value_range_witness :
  parse LittleEndian (Int 8 true "little") 0 [xff] = Ok (VInt (-1), 1)
  /\ In 1 [1; 2; 4; 8]
  /\ exists v, VInt (-1) = VInt v
               /\ - 2 ^ (8 * 1 - 1) <= v < 2 ^ (8 * 1 - 1).
Proof.
  split; [reflexivity|].
  exact (Int_parse_value_range LittleEndian 8 true "little" 0 [xff]
           (VInt (-1)) 1 eq_refl).
Defined.

Lemma Int_parse_unknown_key_witness :
  parse LittleEndian (Int 8 true "middle") 0 [x01]
  = Raise (KeyError "'middle'")
  /\ parse LittleEndian (Int 24 true "big") 0 [x01]
     = Raise (KeyError "24").
Proof.
  split.
  - apply (proj1 (Int_parse_unknown_key LittleEndian 8 true "middle" 0
                    [x01])).
    intros [H|[H|[H|[]]]]; discriminate H.
  - apply (proj2 (Int_parse_unknown_key LittleEndian 24 true "big" 0 [x01])).
    + right. left. reflexivity.
    + intros [H|[H|[H|[H|[H|[]]]]]]; discriminate H.
Defined.

Lemma Int_parse_big_is_little_reversed_witness :
  parse LittleEndian (Int 16 false "big") 0 [x01; x02] = Ok (VInt 258, 2)
  /\ parse LittleEndian (Int 16 false "little") 0 (rev [x01; x02])
     = Ok (VInt 258, 2).
Proof.
  split; [reflexivity|].
  apply (Int_parse_big_is_little_reversed LittleEndian 16 false 0
           [x01; x02] (VInt 258) 2); reflexivity.
Defined.

Lemma UInt_is_Int_modulo_witness :
  parse LittleEndian (Int 8 true "little") 0 [xff] = Ok (VInt (-1), 1)
  /\ parse LittleEndian (UInt 8 "little") 0 [xff]
     = Ok (VInt ((-1) mod 2 ^ (8 * 1)), 1).
Proof.
  split; [reflexivity|].
  apply (UInt_is_Int_modulo LittleEndian 8 "little" 0 [xff] (-1) 1).
  reflexivity.
Defined.

Lemma Sig_parse_iff_prefix_witness :
  parse LittleEndian (Sig (b "PK")) 0 (b "PK" ++ b "xyz")
  = Ok (VBytes (b "PK"), len (b "PK"))
  /\ (VBytes (b "PK") = VBytes (b "PK") /\ 2 = len (b "PK")
      /\ b "PKxyz" = b "PK" ++ slice_from 2 (b "PKxyz"))
  /\ parse LittleEndian (Sig (b "PK")) 0 (b "XXxyz")
     = Raise (ValueError "b'XX' does not match expected b'PK'!").
Proof.
  split; [|split].
  - apply (proj1 (Sig_parse_iff_prefix LittleEndian (b "PK") 0 [])).
  - apply (proj1 (proj2 (Sig_parse_iff_prefix LittleEndian (b "PK") 0
                           (b "PKxyz")))).
    reflexivity.
  - apply (proj2 (proj2 (Sig_parse_iff_prefix LittleEndian (b "PK") 0
                           (b "XXxyz")))).
    intros rest H. discriminate H.
Defined.

Lemma Str_fixed_reads_padded_text_witness :
  parse LittleEndian (Str 4 utf_8) 0 (b "hi" ++ [x00; x00] ++ b "zz")
  = Ok (VStr [104; 105]%N, 4).
Proof.
  apply (Str_fixed_reads_padded_text LittleEndian 4 utf_8 0 (b "hi")
           (b "zz")).
  - reflexivity.
  - discriminate.
  - repeat constructor.
  - discriminate.
Defined.

Lemma aligned_next_multiple_witness :
  0 < 4 /\ aligned 4 4 mod 4 = 0 /\ 4 < aligned 4 4 <= 4 + 4.
Proof.
  split; [reflexivity|]. apply (aligned_next_multiple 4 4). reflexivity.
Defined.

Lemma Struct_consumed_is_sum_witness :
  parse LittleEndian
        (StructObj "S" 0 false [("a", Some (Int 16 true "little"));
                                ("b", Some (Int 8 true "little"))])
        0 [x01; x00; x02; x03]
  = Ok (VObj "S" [("a", VInt 1); ("b", VInt 2)], 3).
Proof.
  apply (Struct_consumed_is_sum LittleEndian "S" 0
           [("a", Some (Int 16 true "little"));
            ("b", Some (Int 8 true "little"))]
           0 [x01; x00; x02; x03] [(VInt 1, 2); (VInt 2, 1)] [x03]
           eq_refl eq_refl).
  - apply Struct_run_cons; [reflexivity|].
    apply Struct_run_cons; [reflexivity|].
    apply Struct_run_nil.
  - constructor; [intros [H|[]]; discriminate H|].
    constructor; [intros []|]. constructor.
Defined.

Lemma Struct_field_error_propagates_witness :
  parse LittleEndian
        (StructObj "S" 0 false
                   ([("a", Some (Int 8 true "little"))]
                    ++ ("b", Some (Int 16 true "little"))
                    :: [("c", Some (Pad 0))]))
        0 [x01]
  = Raise (struct_error "unpack requires a buffer of 2 bytes")
  /\ parse LittleEndian
           (StructObj "U" 0 true
                      ([("a", Some (Int 8 true "little"))]
                       ++ ("b", Some (Int 16 true "little"))
                       :: [("c", Some (Pad 0))]))
           0 [x01]
     = Raise (struct_error "unpack requires a buffer of 2 bytes").
Proof.
  split.
  - apply (proj1 (Struct_field_error_propagates LittleEndian "S" 0 0 [x01]
                    [("a", Some (Int 8 true "little"))]
                    [("c", Some (Pad 0))] "b"
                    (Some (Int 16 true "little")) [(VInt 1, 1)] []
                    (struct_error "unpack requires a buffer of 2 bytes")
                    eq_refl eq_refl)).
    + apply Struct_run_cons; [reflexivity|]. apply Struct_run_nil.
    + reflexivity.
  - apply (proj2 (Struct_field_error_propagates LittleEndian "U" 0 0 [x01]
                    [("a", Some (Int 8 true "little"))]
                    [("c", Some (Pad 0))] "b"
                    (Some (Int 16 true "little")) [(VInt 1, 1)] []
                    (struct_error "unpack requires a buffer of 2 bytes")
                    eq_refl eq_refl)).
    + repeat constructor.
    + reflexivity.
Defined.

Lemma Struct_field_offsets_witness :
  field_parse LittleEndian 0 (Some (Int 8 true "little"))
              (slice_from 4 [x01; x00; xff; xff; x02; x03])
  = Ok (VInt 2, 1)
  /\ parse LittleEndian
           (StructObj "S" 4 false [("a", Some (Int 16 true "little"));
                                   ("b", Some (Int 8 true "little"))])
           0 [x01; x00; xff; xff; x02; x03]
     = Ok (VObj "S" [("a", VInt 1); ("b", VInt 2)], 8).
Proof.
  split; [reflexivity|].
  apply (Struct_field_offsets LittleEndian "S" 4
           [("a", Some (Int 16 true "little"));
            ("b", Some (Int 8 true "little"))]
           0 [x01; x00; xff; xff; x02; x03] [(VInt 1, 2); (VInt 2, 1)]
           eq_refl eq_refl).
  - apply Struct_at_cons; [reflexivity|discriminate|].
    apply Struct_at_cons; [reflexivity|discriminate|].
    apply Struct_at_nil.
  - constructor; [intros [H|[]]; discriminate H|].
    constructor; [intros []|]. constructor.
Defined.

Lemma Arr_fixed_outcomes_witness :
  parse LittleEndian (Arr (Int 8 true "little") 2) 0 [x01; x02; x03]
  = Ok (VList [VInt 1; VInt 2], 2)
  /\ parse LittleEndian (Arr (Int 8 true "little") 3) 0 [x01; x02]
     = Raise (ValueError
                "Not enough elements in array, expected 3 and got 1.")
  /\ parse LittleEndian (Arr (Int 16 true "little") 2) 0 [x01; x00; x02]
     = Raise (struct_error "unpack requires a buffer of 2 bytes").
Proof.
  split; [|split].
  - apply (proj1 (Arr_fixed_outcomes LittleEndian (Int 8 true "little") 2 0
                    [x01; x02; x03] [(VInt 1, 1); (VInt 2, 1)] [x03]
                    eq_refl
                    ltac:(repeat (apply Arr_run_step;
                                  [discriminate|reflexivity|]);
                          apply Arr_run_done)));
      reflexivity.
  - apply (proj1 (proj2 (Arr_fixed_outcomes LittleEndian
                           (Int 8 true "little") 3 0
                           [x01; x02] [(VInt 1, 1); (VInt 2, 1)] []
                           eq_refl
                           ltac:(repeat (apply Arr_run_step;
                                         [discriminate|reflexivity|]);
                                 apply Arr_run_done))));
      reflexivity.
  - apply (proj2 (proj2 (Arr_fixed_outcomes LittleEndian
                           (Int 16 true "little") 2 0
                           [x01; x00; x02] [(VInt 1, 2)] [x02]
                           eq_refl
                           ltac:(apply Arr_run_step;
                                 [discriminate|reflexivity|];
                                 apply Arr_run_done)))).
    + reflexivity.
    + discriminate.
    + reflexivity.
Defined.

Lemma Arr_unbounded_outcomes_witness :
  parse LittleEndian (Arr (Int 8 true "little") 0) 3 [x01; x02]
  = Ok (VList [VInt 1; VInt 2], 0)
  /\ parse LittleEndian (Arr (Int 16 true "little") 0) 3 [x01; x00; x02]
     = Raise (struct_error "unpack requires a buffer of 2 bytes").
Proof.
  split.
  - apply (proj1 (Arr_unbounded_outcomes LittleEndian
                    (Int 8 true "little") 3 [x01; x02]
                    [(VInt 1, 1); (VInt 2, 1)] []
                    eq_refl
                    ltac:(repeat (apply Arr_run_step;
                                  [discriminate|reflexivity|]);
                          apply Arr_run_done)
                    ltac:(simpl; lia))).
    reflexivity.
  - apply (proj2 (Arr_unbounded_outcomes LittleEndian
                    (Int 16 true "little") 3 [x01; x00; x02]
                    [(VInt 1, 2)] [x02]
                    eq_refl
                    ltac:(apply Arr_run_step;
                          [discriminate|reflexivity|];
                          apply Arr_run_done)
                    ltac:(simpl; lia))).
    + discriminate.
    + reflexivity.
Defined.

Lemma Seq_success_is_a_run_witness :
  parse LittleEndian (Seq (Sig (b "ab")) 0) 3 (b "ababXX")
  = Ok (VList [VBytes (b "ab"); VBytes (b "ab")], 4)
  /\ exists steps rest,
       VList [VBytes (b "ab"); VBytes (b "ab")] = VList (map fst steps)
       /\ 4 = Zsum (map snd steps)
       /\ Seq_run (parse LittleEndian (Sig (b "ab")) 3) 0 (b "ababXX") 0
                  steps rest 4
       /\ (rest = []
           \/ (0 <> 0 /\ 0 <= 4)
           \/ exists e, parse LittleEndian (Sig (b "ab")) 3 rest = Raise e).
Proof.
  split; [reflexivity|].
  exact (Seq_success_is_a_run LittleEndian (Sig (b "ab")) 0 3 (b "ababXX")
           (VList [VBytes (b "ab"); VBytes (b "ab")]) 4 eq_refl eq_refl).
Defined.



Lemma consumed_nonneg_witness :
  nonneg_config (StructObj "S" 4 false
                   [("xs", Some (Arr (Int 16 true "little") 2))]) = true
  /\ plain_fields (StructObj "S" 4 false
                     [("xs", Some (Arr (Int 16 true "little") 2))]) = true
  /\ parse LittleEndian
           (StructObj "S" 4 false
              [("xs", Some (Arr (Int 16 true "little") 2))])
           0 [x01; x00; x02; x00]
     = Ok (VObj "S" [("xs", VList [VInt 1; VInt 2])], 4)
  /\ 0 <= 4.
Proof.
  split; [reflexivity|]. split; [reflexivity|]. split; [reflexivity|].
  apply (consumed_nonneg LittleEndian
           (StructObj "S" 4 false
              [("xs", Some (Arr (Int 16 true "little") 2))])
           eq_refl eq_refl
           0%nat [x01; x00; x02; x00]
           (VObj "S" [("xs", VList [VInt 1; VInt 2])]) 4).
  reflexivity.
Defined.

Lemma Any_error_lines_witness :
  split_lines
    (exn_msg (Any_error [("Sig", ValueError "no match");
                         ("Any", ValueError ("first" +++ nl +++ "- second"))]))
  = ["Expected any of the following, nothing matched:";
     "- Sig: ValueError: no match";
     "- Any: ValueError: first";
     "  - second"].
Proof.
  apply (Any_error_lines [("Sig", ValueError "no match");
                          ("Any", ValueError ("first" +++ nl +++ "- second"))]).
  - discriminate.
  - repeat constructor.
Defined.

Lemma MetaStruct_new_field_order_witness :
  fst (MetaStruct_new
         [Some [("a", Some (Int 8 true "little"));
                ("b", Some (Int 8 true "little"))]]
         [("c", AttrNone); ("x", AttrInt 1);
          ("b", AttrDesc (Int 16 true "little"))])
  = [("a", Some (Int 8 true "little"));
     ("b", Some (Int 16 true "little"));
     ("c", None)].
Proof.
  apply (proj1 (MetaStruct_new_field_order
                  [Some [("a", Some (Int 8 true "little"));
                         ("b", Some (Int 8 true "little"))]]
                  [("c", AttrNone); ("x", AttrInt 1);
                   ("b", AttrDesc (Int 16 true "little"))]
                  ltac:(repeat (constructor;
                                [cbn; intuition discriminate|]);
                        constructor))).
Defined.

Lemma MetaStruct_new_namespace_witness :
  snd (MetaStruct_new
         [None]
         [("c", AttrNone); ("x", AttrInt 1);
          ("b", AttrDesc (Int 16 true "little"))])
  = [("x", AttrInt 1);
     ("_spec", AttrSpec [("c", None);
                         ("b", Some (Int 16 true "little"))])].
Proof.
  apply (MetaStruct_new_namespace
           [None]
           [("c", AttrNone); ("x", AttrInt 1);
            ("b", AttrDesc (Int 16 true "little"))]
           ltac:(repeat (constructor; [cbn; intuition discriminate|]);
                 constructor)).
Defined.


Lemma parse_spec_of_class_witness :
  parse_spec LittleEndian (ArgClass CPad) 0 [x01] = Ok (VNone, 0)
  /\ ((CPad = CPad /\ VNone = VNone /\ 0 = 0)
      \/ (CPad = CData /\ VNone = VBytes [] /\ 0 = 0)
      \/ exists cls _align _union _spec,
           CPad = CRecord false cls _align _union _spec
           /\ parse LittleEndian (StructObj cls _align _union _spec) 0 [x01]
              = Ok (VNone, 0)).
Proof.
  split; [reflexivity|].
  exact (proj1 (parse_spec_of_class LittleEndian 0 [x01]) CPad VNone 0
               eq_refl).
Defined.
